(** * Verification of the PPG denoising script [BLOG/dspblog.py]

    The script builds a synthetic photoplethysmography signal, runs it through
    a notch / high-pass / low-pass cascade of zero-phase IIR filters, computes
    one-sided magnitude spectra and reports the signal-to-noise ratio before
    and after filtering.

    Number model.  Python floats are idealised: quantities that the script
    only adds, multiplies, divides and compares (durations, frequencies,
    normalised cut-offs, the time grid, the FFT frequency labels) are exact
    rationals [Q], so that every guard of the code can be evaluated; samples,
    filter coefficients and everything that goes through [sin], [cos], [tan],
    [sqrt] or [log10] are real numbers [R].  Rounding is not modelled.

    Exact numbers and doubles can part by more than the last digits in three
    places.  The sample count [int(fs * duration)] is taken on the exact
    product; the double product is exact too for a whole number of seconds,
    as in the script's own call, but can round across an integer for other
    durations.  [np.var] of a constant array that is not zero is in general a
    tiny positive double where the exact variance is zero; the evaluator's
    zero-variance cases are therefore stated for a residual that is
    identically zero.  And [iirnotch] divides by [1 + beta], which is zero
    for some bandwidths outside [(0, 1)]; there the model's total division
    returns 0.

    The file has three layers: [Numpy] and [Scipy] give the documented
    behaviour of the library routines the script calls, [Dspblog] is the
    script itself, function by function. *)

From Stdlib Require Import Reals QArith Qround Qreals ZArith ZifyNat List.
From Stdlib Require Import Lra Lia Bool Psatz.
Import ListNotations.

Set Implicit Arguments.

(** ** Exceptions

    Python exceptions the script can run into.  Every failing library call
    aborts the calling function, so fallible code lives in an error monad. *)

Inductive exn : Type :=
| ValueError
| ZeroDivisionError
| LinAlgError.

Inductive result (A : Type) : Type :=
| Ok (a : A)
| Raise (e : exn).

Arguments Ok {A} a.
Arguments Raise {A} e.

Definition bind {A B : Type} (m : result A) (k : A -> result B) : result B :=
  match m with
  | Ok a => k a
  | Raise e => Raise e
  end.

Declare Scope result_scope.
Delimit Scope result_scope with result.
Notation "x <- m ;; k" := (bind m (fun x => k))
  (at level 61, m at next level, right associativity) : result_scope.
Notation "' p <- m ;; k" := (bind m (fun x => match x with p => k end))
  (at level 61, p pattern, m at next level, right associativity) : result_scope.

Definition succeeds {A : Type} (m : result A) : Prop :=
  exists a, m = Ok a.

Definition fails {A : Type} (m : result A) : Prop :=
  exists e, m = Raise e.

(** ** Buffers *)

(** A sample buffer is a one-dimensional array of floats. *)
Definition buffer : Type := list R.

(** [l[edge:-edge]] for [0 < edge]. *)
Definition slice_both {A : Type} (edge : nat) (l : list A) : list A :=
  firstn (length l - edge - edge) (skipn edge l).

(** [l[-1] = v] on a non-empty array. *)
Definition set_last {A : Type} (v : A) (l : list A) : list A :=
  firstn (length l - 1) l ++ [v].

(** Boolean-mask indexing [xs[mask]]. *)
Fixpoint mask_select {A : Type} (mask : list bool) (xs : list A) : list A :=
  match mask, xs with
  | m :: mask', x :: xs' =>
      if m then x :: mask_select mask' xs' else mask_select mask' xs'
  | _, _ => []
  end.

(** ** The part of NumPy the script uses *)

Module Numpy.

(** Strict comparisons of floats, as booleans. *)
Definition Qltb (x y : Q) : bool := negb (Qle_bool y x).
Definition Qgtb (x y : Q) : bool := Qltb y x.

(** [int(x)]: truncation towards zero. *)
Definition int (x : Q) : Z := Z.quot (Qnum x) (Zpos (Qden x)).

(** [np.arange(lo, hi)] with unit step, as integers. *)
Definition arange (lo hi : Z) : list Z :=
  map (fun k => (lo + Z.of_nat k)%Z) (seq 0 (Z.to_nat (hi - lo))).

(** [np.linspace(start, stop, num)] with the default [endpoint=True]:
    [num] samples, the step is [(stop - start) / (num - 1)] and the last
    sample is overwritten with [stop]. *)
Definition linspace (start stop : Q) (num : Z) : result (list Q) :=
  if (num <? 0)%Z then Raise ValueError
  else
    let div := (num - 1)%Z in
    let y := map inject_Z (arange 0 num) in
    let delta := (stop - start)%Q in
    let y :=
      if (0 <? div)%Z then
        let step := (delta / inject_Z div)%Q in
        if Qeq_bool step 0
        then map (fun v => (v / inject_Z div * delta)%Q) y
        else map (fun v => (v * step)%Q) y
      else map (fun v => (v * delta)%Q) y in
    let y := map (fun v => (v + start)%Q) y in
    Ok (if (1 <? num)%Z then set_last stop y else y).

(** The global random generator behind [np.random.randn]: its hidden state
    is the stream of standard-normal draws still to come. *)
Definition rng_state : Type := nat -> R.

Definition randn (n : nat) (g : rng_state) : buffer * rng_state :=
  (map g (seq 0 n), fun k => g (n + k)%nat).

(** Elementwise arithmetic on arrays of one length. *)
Definition vadd (x y : buffer) : buffer :=
  map (fun p => (fst p + snd p)%R) (combine x y).

(** [a - b] on one-dimensional arrays, with NumPy's broadcasting: equal
    lengths subtract elementwise, a one-element operand is stretched over the
    other one, anything else is a [ValueError]. *)
Definition subtract (a b : buffer) : result buffer :=
  if Nat.eqb (length a) (length b)
  then Ok (map (fun p => (fst p - snd p)%R) (combine a b))
  else match a, b with
       | [a0], _ => Ok (map (fun v => (a0 - v)%R) b)
       | _, [b0] => Ok (map (fun v => (v - b0)%R) a)
       | _, _ => Raise ValueError
       end.

(** Scalars that come out of reductions and divisions are IEEE doubles:
    NumPy divides by zero without raising (it only warns) and returns an
    infinity or a NaN.  Signed zeros are not distinguished. *)
Inductive float : Type :=
| Fin (x : R)
| PInf
| NInf
| NaN.

Definition fdiv (x y : float) : float :=
  match x, y with
  | NaN, _ | _, NaN => NaN
  | Fin a, Fin b =>
      if Req_dec_T b 0
      then (if Req_dec_T a 0 then NaN else if Rlt_dec 0 a then PInf else NInf)
      else Fin (a / b)
  | Fin _, (PInf | NInf) => Fin 0
  | PInf, Fin b => if Rlt_dec b 0 then NInf else PInf
  | NInf, Fin b => if Rlt_dec b 0 then PInf else NInf
  | (PInf | NInf), (PInf | NInf) => NaN
  end.

Definition fmul (x y : float) : float :=
  match x, y with
  | NaN, _ | _, NaN => NaN
  | Fin a, Fin b => Fin (a * b)
  | Fin a, PInf | PInf, Fin a =>
      if Req_dec_T a 0 then NaN else if Rlt_dec 0 a then PInf else NInf
  | Fin a, NInf | NInf, Fin a =>
      if Req_dec_T a 0 then NaN else if Rlt_dec 0 a then NInf else PInf
  | PInf, PInf | NInf, NInf => PInf
  | PInf, NInf | NInf, PInf => NInf
  end.

Definition fsub (x y : float) : float :=
  match x, y with
  | NaN, _ | _, NaN => NaN
  | Fin a, Fin b => Fin (a - b)
  | Fin _, PInf => NInf
  | Fin _, NInf => PInf
  | PInf, (Fin _ | NInf) => PInf
  | NInf, (Fin _ | PInf) => NInf
  | PInf, PInf | NInf, NInf => NaN
  end.

(** [np.log10]. *)
Definition log10 (x : float) : float :=
  match x with
  | Fin a =>
      if Req_dec_T a 0 then NInf
      else if Rlt_dec 0 a then Fin (ln a / ln 10) else NaN
  | PInf => PInf
  | NInf | NaN => NaN
  end.

Definition sum (x : buffer) : R := fold_right Rplus 0%R x.

Definition mean (x : buffer) : R := (sum x / INR (length x))%R.

(** [np.var] with the default [ddof=0]: the mean of the squared deviations
    from the mean; NaN on an empty array.  This is the exact variance: in
    doubles the mean of a constant array need not be the constant, and
    [np.var] is then a tiny positive number instead of zero. *)
Definition var (x : buffer) : float :=
  match x with
  | [] => NaN
  | _ =>
      let m := mean x in
      Fin (sum (map (fun v => ((v - m) * (v - m))%R) x) / INR (length x))
  end.

(** Complex numbers, as pairs. *)
Definition C : Type := (R * R)%type.

(** [np.abs] on a complex number. *)
Definition abs (z : C) : R := sqrt (fst z * fst z + snd z * snd z).

End Numpy.

(** ** Complex arithmetic for the pole-zero computations *)

Module Cplx.
Import Numpy.
Local Open Scope R_scope.

Definition C0 : C := (0, 0).
Definition C1 : C := (1, 0).
Definition RtoC (x : R) : C := (x, 0).
Definition Re (z : C) : R := fst z.
Definition Im (z : C) : R := snd z.
Definition Cadd (z w : C) : C := (fst z + fst w, snd z + snd w).
Definition Cneg (z : C) : C := (- fst z, - snd z).
Definition Csub (z w : C) : C := (fst z - fst w, snd z - snd w).
Definition Cmul (z w : C) : C :=
  (fst z * fst w - snd z * snd w, fst z * snd w + snd z * fst w).
Definition Cnorm2 (z : C) : R := fst z * fst z + snd z * snd z.
Definition Cdiv (z w : C) : C :=
  ((fst z * fst w + snd z * snd w) / Cnorm2 w,
   (snd z * fst w - fst z * snd w) / Cnorm2 w).
Definition Cconj (z : C) : C := (fst z, - snd z).

(** [exp(1j * theta)]. *)
Definition Cexp_i (theta : R) : C := (cos theta, sin theta).

(** [np.prod]. *)
Definition Cprod (l : list C) : C := fold_right Cmul C1 l.

(** One pass of [np.poly]'s loop: [convolve(a, [1, -zero])]. *)
Definition mul_linear (a : list C) (zero : C) : list C :=
  map (fun p => Cadd (fst p) (snd p))
      (combine (a ++ [C0]) (C0 :: map (Cmul (Cneg zero)) a)).

(** [np.poly]: coefficients, highest degree first, of the monic polynomial
    with the given roots. *)
Definition poly (zeros : list C) : list C := fold_left mul_linear zeros [C1].

End Cplx.

(** ** The part of SciPy the script uses *)

Module Scipy.
Import Numpy Cplx.
Local Open Scope R_scope.

(** *** [scipy.fft] *)

(** One bin of the discrete Fourier transform,
    [sum_n x[n] * exp(-2j*pi*k*n/N)]. *)
Definition dft_bin (x : buffer) (k : nat) : C :=
  let N := INR (length x) in
  fold_right Cadd C0
    (map (fun p => Cmul (RtoC (snd p))
                        (Cexp_i (- (2 * PI * INR k * INR (fst p) / N))))
         (combine (seq 0 (length x)) x)).

(** [fft(x)]; an empty input is rejected. *)
Definition fft (x : buffer) : result (list C) :=
  match x with
  | [] => Raise ValueError
  | _ => Ok (map (dft_bin x) (seq 0 (length x)))
  end.

(** [fftfreq(n, d)]: the bin labels [0, 1, ..., (n-1)//2, -(n//2), ..., -1],
    each times [1 / (n*d)]. *)
Definition fftfreq (n : nat) (d : Q) : result (list Q) :=
  let n := Z.of_nat n in
  if Qeq_bool (inject_Z n * d) 0 then Raise ZeroDivisionError
  else
    let val := (1 / (inject_Z n * d))%Q in
    let N := ((n - 1) / 2 + 1)%Z in
    let p1 := arange 0 N in
    let p2 := arange (- (n / 2)) 0 in
    Ok (map (fun k => (inject_Z k * val)%Q) (p1 ++ p2)).

(** *** [scipy.signal]: filter design *)

(** Transfer-function coefficients [(b, a)]. *)
Definition coeffs : Type := (list R * list R)%type.

(** [iirnotch(w0, Q)] with the default [fs=2.0].  The only guard is on [w0];
    the division [w0/Q] is a division of Python floats.  [1 + beta] is zero
    when [tan (bw / 2) = -1], which needs a bandwidth [w0 / Q] outside
    [(0, 1)]; the gain is then [1 / 0], which Rocq's total division makes 0. *)
Definition iirnotch (w0 Q : Q) : result coeffs :=
  let w0 := (2 * w0 / 2)%Q in
  if Qgtb w0 1 || Qltb w0 0 then Raise ValueError
  else if Qeq_bool Q 0 then Raise ZeroDivisionError
  else
    let bw := (w0 / Q)%Q in
    let bw := Q2R bw * PI in
    let w0 := Q2R w0 * PI in
    let gb := 1 / sqrt 2 in
    let beta := sqrt (1 - gb ^ 2) / gb * tan (bw / 2) in
    let gain := 1 / (1 + beta) in
    let b := map (Rmult gain) [1; -2 * cos w0; 1] in
    let a := [1; -2 * gain * cos w0; 2 * gain - 1] in
    Ok (b, a).

Inductive btype : Type := lowpass | highpass.

(** [np.arange(lo, hi, 2)]. *)
Definition arange2 (lo hi : Z) : list Z :=
  map (fun j => (lo + 2 * Z.of_nat j)%Z) (seq 0 (Z.to_nat ((hi - lo + 1) / 2))).

(** [buttap(N)]: the analog Butterworth prototype, [N] poles on the left
    half of the unit circle, no zeros, gain 1. *)
Definition buttap (N : Z) : result (list C * list C * R) :=
  if (N <? 0)%Z then Raise ValueError
  else
    let m := arange2 (- N + 1) N in
    let p := map (fun m => Cneg (Cexp_i (PI * IZR m / (2 * IZR N)))) m in
    Ok ([], p, 1).

(** [lp2lp_zpk]: move the cut-off of a low-pass prototype to [wo]. *)
Definition lp2lp_zpk (z p : list C) (k wo : R) : list C * list C * R :=
  let degree := (length p - length z)%nat in
  (map (Cmul (RtoC wo)) z, map (Cmul (RtoC wo)) p, k * wo ^ degree).

(** [lp2hp_zpk]: turn a low-pass prototype into a high-pass with cut-off
    [wo]. *)
Definition lp2hp_zpk (z p : list C) (k wo : R) : list C * list C * R :=
  let degree := (length p - length z)%nat in
  let z_hp := map (Cdiv (RtoC wo)) z in
  let p_hp := map (Cdiv (RtoC wo)) p in
  (z_hp ++ repeat C0 degree, p_hp,
   k * Re (Cdiv (Cprod (map Cneg z)) (Cprod (map Cneg p)))).

(** [bilinear_zpk]: analog to digital by the bilinear transform. *)
Definition bilinear_zpk (z p : list C) (k fs : R) : list C * list C * R :=
  let degree := (length p - length z)%nat in
  let fs2 := RtoC (2 * fs) in
  let z_z := map (fun v => Cdiv (Cadd fs2 v) (Csub fs2 v)) z in
  let p_z := map (fun v => Cdiv (Cadd fs2 v) (Csub fs2 v)) p in
  (z_z ++ repeat (Cneg C1) degree, p_z,
   k * Re (Cdiv (Cprod (map (Csub fs2) z)) (Cprod (map (Csub fs2) p)))).

(** [zpk2tf].  The roots come in conjugate pairs, for which SciPy returns
    the real parts of the polynomial coefficients. *)
Definition zpk2tf (z p : list C) (k : R) : coeffs :=
  (map (fun c => k * Re c) (poly z), map Re (poly p)).

(** [butter(N, Wn, btype)], that is [iirfilter] with [ftype='butter'],
    [analog=False], [output='ba'] and a scalar [Wn]. *)
Definition butter (N : Z) (Wn : Q) (bt : btype) : result coeffs :=
  if Qle_bool Wn 0 then Raise ValueError
  else
    ('(z, p, k) <- buttap N ;;
     if Qle_bool Wn 0 || Qle_bool 1 Wn then Raise ValueError
     else
       let fs := 2 in
       let warped := 2 * fs * tan (PI * Q2R Wn / fs) in
       let '(z, p, k) :=
         match bt with
         | lowpass => lp2lp_zpk z p k warped
         | highpass => lp2hp_zpk z p k warped
         end in
       let '(z, p, k) := bilinear_zpk z p k fs in
       Ok (zpk2tf z p k))%result.

(** *** [scipy.signal]: filter application *)

(** [odd_ext(x, n)]: extend [x] by [n] samples at each end, reflected
    through the end points.  The caller guarantees [n < len(x)]. *)
Definition odd_ext (x : buffer) (n : nat) : buffer :=
  let left_end := nth 0 x 0 in
  let left_ext := rev (firstn n (skipn 1 x)) in
  let right_end := nth (length x - 1) x 0 in
  let right_ext := rev (firstn n (skipn (length x - 1 - n) x)) in
  map (fun v => 2 * left_end - v) left_ext
  ++ x
  ++ map (fun v => 2 * right_end - v) right_ext.

(** Zero padding of a coefficient vector to [n] taps. *)
Definition pad_to (n : nat) (c : list R) : list R :=
  c ++ repeat 0 (n - length c).

(** [a] and [b] divided by [a[0]] and padded to a common length. *)
Definition normalize (b a : list R) : list R * list R :=
  let a0 := nth 0 a 0 in
  let n := Nat.max (length a) (length b) in
  (pad_to n (map (fun v => v / a0) b), pad_to n (map (fun v => v / a0) a)).

(** One sample of the transposed direct form II recursion: the output and
    the new delay line. *)
Fixpoint df2t_state (z b a : list R) (x y : R) : list R :=
  match z, b, a with
  | _ :: z', bi :: b', ai :: a' =>
      (nth 0 z' 0 + bi * x - ai * y) :: df2t_state z' b' a' x y
  | _, _, _ => []
  end.

Definition df2t_step (b a z : list R) (x : R) : R * list R :=
  let y := nth 0 z 0 + nth 0 b 0 * x in
  (y, df2t_state z (tl b) (tl a) x y).

Fixpoint df2t_run (b a z : list R) (x : buffer) : buffer * list R :=
  match x with
  | [] => ([], z)
  | x0 :: x' =>
      let '(y0, z1) := df2t_step b a z x0 in
      let '(y', zf) := df2t_run b a z1 x' in
      (y0 :: y', zf)
  end.

(** [lfilter(b, a, x, zi=zi)]: the filtered signal and the final delay
    line. *)
Definition lfilter (b a : list R) (x : buffer) (zi : list R)
  : result (buffer * list R) :=
  match a with
  | [] => Raise ValueError
  | a0 :: _ =>
      if Req_dec_T a0 0 then Raise ValueError
      else if negb (Nat.eqb (length zi) (Nat.max (length a) (length b) - 1))
      then Raise ValueError
      else let '(b', a') := normalize b a in Ok (df2t_run b' a' zi x)
  end.

(** Leading zeros of [a] are dropped, down to one coefficient. *)
Fixpoint strip_zeros (a : list R) : list R :=
  match a with
  | a0 :: (_ :: _) as a' => if Req_dec_T a0 0 then strip_zeros a' else a
  | _ => a
  end.

(** The closed form of the steady state, as given in SciPy's source next to
    the linear solve: [zi[0] = sum(B) / sum(a)] and
    [zi[k] = (1 + a[1] + ... + a[k]) * zi[0] - (B[0] + ... + B[k-1])] for
    [1 <= k <= n-2]. *)
Fixpoint steady_state (asum csum zi0 : R) (a B : list R) : list R :=
  match a, B with
  | ak :: a', Bk :: B' =>
      let asum := asum + ak in
      let csum := csum + Bk in
      (asum * zi0 - csum) :: steady_state asum csum zi0 a' B'
  | _, _ => []
  end.

(** [lfilter_zi(b, a)]: the delay line of the filter's step-response steady
    state, the solution [zi] of [(I - A^T) zi = B] where [A] is the companion
    matrix of [a] and [B = b[1:] - a[1:]*b[0]].  [linalg.companion] wants at
    least two coefficients, and [np.linalg.solve] raises on a singular
    matrix; the determinant of [I - A^T] is the sum of the normalised [a]. *)
Definition lfilter_zi (b a : list R) : result (list R) :=
  let a := strip_zeros a in
  match a with
  | [] => Raise ValueError
  | _ =>
      let '(b, a) := normalize b a in
      if (length a <? 2)%nat then Raise ValueError
      else if Req_dec_T (nth 0 a 0) 0 then Raise ValueError
      else if Req_dec_T (sum a) 0 then Raise LinAlgError
      else
        let B := map (fun p => fst p - snd p * nth 0 b 0)
                     (combine (tl b) (tl a)) in
        let zi0 := sum B / sum a in
        Ok (zi0 :: steady_state 1 0 zi0 (tl a) (firstn (length B - 1) B))
  end.

(** [filtfilt(b, a, x)] with the defaults [padtype='odd'], [padlen=None],
    [method='pad']: pad, filter forwards, filter the reversed output, reverse
    and cut the padding off. *)
Definition filtfilt (b a : list R) (x : buffer) : result buffer :=
  let ntaps := Nat.max (length a) (length b) in
  let edge := (ntaps * 3)%nat in
  if (length x <=? edge)%nat then Raise ValueError
  else
    let ext := if (0 <? edge)%nat then odd_ext x edge else x in
    (zi <- lfilter_zi b a ;;
     let x0 := nth 0 ext 0 in
     '(y, _) <- lfilter b a ext (map (fun v => v * x0) zi) ;;
     let y0 := nth (length y - 1) y 0 in
     '(y, _) <- lfilter b a (rev y) (map (fun v => v * y0) zi) ;;
     let y := rev y in
     Ok (if (0 <? edge)%nat then slice_both edge y else y))%result.

End Scipy.

(** ** The script *)

Module Dspblog.
Import Numpy Cplx Scipy.

(** Sampling frequency. *)
Definition fs : Q := 1000.
Definition nyquist : Q := fs / 2.

(** Default arguments. *)
Definition default_duration : Q := 10.
Definition default_notch_freq : Q := 50.
Definition default_quality_factor : Q := 30.
Definition default_highpass_cutoff : Q := 0.5.
Definition default_lowpass_cutoff : Q := 10.
Definition default_order : Z := 4.

(** The clean pulse wave and the three deterministic disturbances, as
    functions of time. *)
Definition clean_at (t : R) : R :=
  (sin (2 * PI * 1.25 * t) + 0.3 * sin (4 * PI * 1.25 * t))%R.
Definition baseline_drift_at (t : R) : R := (0.5 * sin (2 * PI * 0.25 * t))%R.
Definition motion_at (t : R) : R := (0.3 * sin (2 * PI * 0.1 * t))%R.
Definition powerline_at (t : R) : R := (0.2 * sin (2 * PI * 50 * t))%R.

(** [generate_ppg_signal(duration)].  The broadband noise is drawn from the
    global generator, whose state is threaded through.  The sample count is
    taken on the exact product [fs * duration]; this is the count of the
    script for a whole number of seconds, where the double product is exact
    as well. *)
Definition generate_ppg_signal (duration : Q) (g : rng_state)
  : result (list Q * buffer * buffer) * rng_state :=
  match linspace 0 duration (int (fs * duration)) with
  | Raise e => (Raise e, g)
  | Ok t =>
      let tr := map Q2R t in
      let clean := map clean_at tr in
      let baseline_drift := map baseline_drift_at tr in
      let motion := map motion_at tr in
      let powerline := map powerline_at tr in
      let '(draws, g') := randn (length t) g in
      let hf_noise := map (Rmult 0.1) draws in
      let noisy :=
        vadd (vadd (vadd (vadd clean baseline_drift) motion) powerline)
             hf_noise in
      (Ok (t, noisy, clean), g')
  end.

(** The coefficient computations of the three filter functions. *)
Definition notch_design (notch_freq quality_factor : Q) : result coeffs :=
  let w0 := (notch_freq / nyquist)%Q in
  iirnotch w0 quality_factor.

Definition high_pass_design (cutoff_freq : Q) (order : Z) : result coeffs :=
  let normalized_cutoff := (cutoff_freq / nyquist)%Q in
  butter order normalized_cutoff highpass.

Definition low_pass_design (cutoff_freq : Q) (order : Z) : result coeffs :=
  let normalized_cutoff := (cutoff_freq / nyquist)%Q in
  butter order normalized_cutoff lowpass.

(** [notch_filter(data, notch_freq, quality_factor)]. *)
Definition notch_filter (data : buffer) (notch_freq quality_factor : Q)
  : result buffer :=
  ('(b, a) <- notch_design notch_freq quality_factor ;;
   filtfilt b a data)%result.

(** [high_pass_filter(data, cutoff_freq, order)]. *)
Definition high_pass_filter (data : buffer) (cutoff_freq : Q) (order : Z)
  : result buffer :=
  ('(b, a) <- high_pass_design cutoff_freq order ;;
   filtfilt b a data)%result.

(** [low_pass_filter(data, cutoff_freq, order)]. *)
Definition low_pass_filter (data : buffer) (cutoff_freq : Q) (order : Z)
  : result buffer :=
  ('(b, a) <- low_pass_design cutoff_freq order ;;
   filtfilt b a data)%result.

(** [2.0 / N] with a Python integer [N]. *)
Definition two_over (N : nat) : result R :=
  match N with
  | O => Raise ZeroDivisionError
  | _ => Ok (2 / INR N)%R
  end.

(** [compute_spectrum(data)]. *)
Definition compute_spectrum (data : buffer) : result (list Q * list R) :=
  let N := length data in
  (yf <- fft data ;;
   xf <- fftfreq N (1 / fs) ;;
   let positive_freq_idx := map (Qle_bool 0) xf in
   let freqs := mask_select positive_freq_idx xf in
   scale <- two_over N ;;
   let magnitude :=
     map (fun v => (scale * abs v)%R) (mask_select positive_freq_idx yf) in
   Ok (freqs, magnitude))%result.

(** The cascade of [demonstrate_filtering]: notch, high-pass, low-pass. *)
Definition cascade (noisy : buffer) : result buffer :=
  (step1 <- notch_filter noisy default_notch_freq default_quality_factor ;;
   step2 <- high_pass_filter step1 default_highpass_cutoff default_order ;;
   low_pass_filter step2 default_lowpass_cutoff default_order)%result.

(** What the script reports. *)
Record quality_report : Type := {
  snr_before : float;
  snr_after : float;
  improvement : float
}.

(** The SNR computation at the end of [demonstrate_filtering]. *)
Definition evaluate (clean noisy filtered : buffer) : result quality_report :=
  (noise_before <- subtract noisy clean ;;
   noise_after <- subtract filtered clean ;;
   let snr_before :=
     fmul (Fin 10) (log10 (fdiv (var clean) (var noise_before))) in
   let snr_after :=
     fmul (Fin 10) (log10 (fdiv (var clean) (var noise_after))) in
   Ok {| snr_before := snr_before;
         snr_after := snr_after;
         improvement := fsub snr_after snr_before |})%result.

(** What [demonstrate_filtering] computes before plotting and printing. *)
Record demonstration : Type := {
  demo_filtered : buffer;
  demo_spectrum_noisy : list Q * list R;
  demo_spectrum_filtered : list Q * list R;
  demo_report : quality_report
}.

(** [demonstrate_filtering()]. *)
Definition demonstrate_filtering (g : rng_state)
  : result demonstration * rng_state :=
  let '(r, g') := generate_ppg_signal default_duration g in
  ('(t, noisy, clean) <- r ;;
   filtered <- cascade noisy ;;
   spectrum_noisy <- compute_spectrum noisy ;;
   spectrum_filtered <- compute_spectrum filtered ;;
   report <- evaluate clean noisy filtered ;;
   Ok {| demo_filtered := filtered;
         demo_spectrum_noisy := spectrum_noisy;
         demo_spectrum_filtered := spectrum_filtered;
         demo_report := report |},
   g')%result.

End Dspblog.

(** ** Notions the properties are stated with *)

Import Numpy Cplx Scipy Dspblog.

(** *** Filter specifications, designer, applicator *)

Inductive filter_spec : Type :=
| Notch (center_freq quality_factor : Q)
| HighPass (cutoff_freq : Q) (order : Z)
| LowPass (cutoff_freq : Q) (order : Z).

(** The designer: the coefficient computation of the matching filter
    function. *)
Definition design (spec : filter_spec) : result coeffs :=
  match spec with
  | Notch f q => notch_design f q
  | HighPass f n => high_pass_design f n
  | LowPass f n => low_pass_design f n
  end.

(** The applicator: zero-phase filtering with given coefficients. *)
Definition apply_filter (c : coeffs) (x : buffer) : result buffer :=
  filtfilt (fst c) (snd c) x.

(** The filter function that belongs to a specification. *)
Definition stage (spec : filter_spec) (x : buffer) : result buffer :=
  match spec with
  | Notch f q => notch_filter x f q
  | HighPass f n => high_pass_filter x f n
  | LowPass f n => low_pass_filter x f n
  end.

(** A pipeline of stages, each one "design, then apply to the buffer that
    the previous stage returned"; the first failure aborts the pipeline. *)
Definition run_stages (specs : list filter_spec) (x : buffer) : result buffer :=
  fold_left
    (fun acc spec =>
       (buf <- acc ;; c <- design spec ;; apply_filter c buf)%result)
    specs (Ok x).

Definition default_stages : list filter_spec :=
  [Notch default_notch_freq default_quality_factor;
   HighPass default_highpass_cutoff default_order;
   LowPass default_lowpass_cutoff default_order].

(** A transfer function the applicator can work with: the leading feedback
    coefficient is not zero, there is no pole at [z = 1] (so the steady state
    of the step response exists) and there is at least one delay.  Stable
    filters of order one and more are of this kind. *)
Definition proper (c : coeffs) : Prop :=
  nth 0 (snd c) 0%R <> 0%R /\ sum (snd c) <> 0%R /\
  (2 <= Nat.max (length (snd c)) (length (fst c)))%nat.

(** The padding [filtfilt] adds at each end. *)
Definition padlen (c : coeffs) : nat :=
  (Nat.max (length (snd c)) (length (fst c)) * 3)%nat.

Definition all_zero (x : list R) : Prop := Forall (fun v => v = 0%R) x.

(** A valid specification: the frequency strictly between 0 and the
    Nyquist frequency and an order of at least 1; for a notch, a quality
    factor so large that the -3 dB bandwidth [f / Q] stays below the Nyquist
    frequency. *)
Definition regular_spec (spec : filter_spec) : Prop :=
  match spec with
  | Notch f q => (0 < f)%Q /\ (f < nyquist)%Q /\ (f / nyquist < q)%Q
  | HighPass f n | LowPass f n => (0 < f)%Q /\ (f < nyquist)%Q /\ (1 <= n)%Z
  end.

(** *** Spectrum *)

(** The signed index of DFT bin [k] of an [N]-point transform: bins up to
    [(N-1)/2] stand for themselves, the upper bins for [k - N]. *)
Definition bin_label (N k : nat) : Z :=
  if (k <? (N - 1) / 2 + 1)%nat then Z.of_nat k
  else (Z.of_nat k - Z.of_nat N)%Z.

(** The frequency in Hz that labels bin [k]. *)
Definition bin_frequency (N k : nat) : Q :=
  (inject_Z (bin_label N k) * (1 / (inject_Z (Z.of_nat N) * (1 / fs))))%Q.

(** The bins with a non-negative frequency, in ascending order. *)
Definition retained (N : nat) : list nat :=
  filter (fun k => Qle_bool 0 (bin_frequency N k)) (seq 0 N).

(** *** Signal quality *)

(** The population variance of a buffer. *)
Definition variance (x : buffer) : R :=
  (sum (map (fun v => (v - mean x) * (v - mean x)) x) / INR (length x))%R.

(** The sample-by-sample difference of two buffers. *)
Definition residual (x y : buffer) : buffer :=
  map (fun p => (fst p - snd p)%R) (combine x y).

(** A power ratio in decibels, [10 * log10 ratio]; a zero ratio is minus
    infinity. *)
Definition decibels (ratio : R) : float :=
  if Req_dec_T ratio 0 then NInf else Fin (10 * (ln ratio / ln 10)).

(** Two one-dimensional shapes that NumPy cannot broadcast together. *)
Definition unbroadcastable (a b : buffer) : Prop :=
  length a <> length b /\ length a <> 1%nat /\ length b <> 1%nat.

(** *** Pole-zero algebra *)

Definition Csum (l : list C) : C := fold_right Cadd C0 l.

(** The bilinear map of [bilinear_zpk] at the sample rate [iirfilter]
    uses. *)
Definition bilinear_map (v : C) : C :=
  Cdiv (Cadd (RtoC (2 * 2)) v) (Csub (RtoC (2 * 2)) v).

(** The poles of the analog prototype of order [N]. *)
Definition buttap_poles (N : Z) : list C :=
  map (fun m => Cneg (Cexp_i (PI * IZR m / (2 * IZR N)))) (arange2 (- N + 1) N).

(** *** The module's variables *)





(** *** Gain, frequency response, superposition *)

(** The gain of a transfer function at frequency zero. *)
Definition dc_gain (c : coeffs) : R := (sum (fst c) / sum (snd c))%R.

(** A buffer whose samples all have one value. *)
Definition constant (c : R) (x : list R) : Prop := Forall (fun v => v = c) x.

(** The weighted sum [k * x + l * y] of two buffers, element by element. *)
Definition superpose (k : R) (x : buffer) (l : R) (y : buffer) : buffer :=
  map (fun p => (k * fst p + l * snd p)%R) (combine x y).

(** The padding that the design of a valid specification asks for: three
    times its number of coefficients. *)
Definition spec_padlen (spec : filter_spec) : nat :=
  match spec with
  | Notch _ _ => 9%nat
  | HighPass _ n | LowPass _ n => (3 * (Z.to_nat n + 1))%nat
  end.

(** The number of coefficients on each side of a design. *)
Definition spec_taps (spec : filter_spec) : nat :=
  match spec with
  | Notch _ _ => 3%nat
  | HighPass _ n | LowPass _ n => (Z.to_nat n + 1)%nat
  end.

(** The value of the polynomial [c[0] + c[1] z^-1 + c[2] z^-2 + ...] on the
    unit circle, at [z = exp(j*omega)]. *)
Definition response (coef : list R) (omega : R) : C :=
  fold_right Cadd C0
    (map (fun p => Cmul (RtoC (snd p)) (Cexp_i (- (INR (fst p) * omega))%R))
         (combine (seq 0 (length coef)) coef)).

(** The digital angular frequency of [f] Hz at the sample rate [fs]. *)
Definition angular (f : Q) : R := (2 * PI * Q2R f / Q2R fs)%R.

(** The angles of the poles of the analog prototype of order [N]. *)
Definition buttap_angles (N : Z) : list R :=
  map (fun m => (PI * IZR m / (2 * IZR N))%R) (arange2 (- N + 1) N).


(** * Properties *)

Ltac lia_div := zify; Z.to_euclidean_division_equations; lia.

(** ** Lists and arrays *)

Lemma set_last_length {A} (v : A) l : l <> [] -> length (set_last v l) = length l.
Proof.
  intros H. unfold set_last. rewrite length_app, length_firstn. simpl.
  destruct l; [congruence|]. simpl. lia.
Qed.

Lemma nth_set_last {A} (v : A) l d i :
  (i < length l)%nat ->
  nth i (set_last v l) d = if Nat.eqb i (length l - 1) then v else nth i l d.
Proof.
  intros Hi. unfold set_last.
  destruct (Nat.eqb_spec i (length l - 1)) as [->|Hne].
  - rewrite app_nth2; rewrite length_firstn, Nat.min_l by lia; [|lia].
    now rewrite Nat.sub_diag.
  - rewrite app_nth1 by (rewrite length_firstn; lia).
    rewrite nth_firstn. destruct (Nat.ltb_spec i (length l - 1)); [reflexivity | lia].
Qed.

Lemma arange_length lo hi : length (arange lo hi) = Z.to_nat (hi - lo).
Proof. unfold arange. now rewrite length_map, length_seq. Qed.

Lemma nth_arange lo hi i d :
  (i < Z.to_nat (hi - lo))%nat -> nth i (arange lo hi) d = (lo + Z.of_nat i)%Z.
Proof.
  intros Hi. unfold arange.
  rewrite (nth_indep _ d (lo + Z.of_nat 0)%Z) by now rewrite length_map, length_seq.
  rewrite (map_nth (fun k => (lo + Z.of_nat k)%Z)), seq_nth by lia. reflexivity.
Qed.

Lemma nth_map_in {A B} (f : A -> B) dA dB l i :
  (i < length l)%nat -> nth i (map f l) dB = f (nth i l dA).
Proof.
  intros Hi. rewrite (nth_indep _ dB (f dA)) by now rewrite length_map.
  apply map_nth.
Qed.

(** [linspace] on a non-negative count: it returns that many samples, spaced
    by [(b - a) / (num - 1)]. *)
Lemma linspace_spec (a b : Q) (num : Z) :
  (0 <= num)%Z ->
  exists y, linspace a b num = Ok y /\ length y = Z.to_nat num /\
    ((1 < num)%Z -> forall i, (i < Z.to_nat num)%nat ->
       nth i y 0%Q == a + inject_Z (Z.of_nat i) * ((b - a) / inject_Z (num - 1)))%Q.
Proof.
  intros Hnum. unfold linspace.
  destruct (Z.ltb_spec num 0) as [|_]; [lia|].
  eexists; split; [reflexivity|].
  set (y0 := map inject_Z (arange 0 num)).
  assert (Hy0 : length y0 = Z.to_nat num).
  { unfold y0. rewrite length_map, arange_length. f_equal; lia. }
  set (y1 := if (0 <? num - 1)%Z then _ else _).
  assert (Hy1 : length y1 = Z.to_nat num).
  { unfold y1. destruct (0 <? num - 1)%Z; [destruct Qeq_bool|]; now rewrite length_map. }
  split.
  - destruct (Z.ltb_spec 1 num); [|now rewrite length_map].
    rewrite set_last_length; [now rewrite length_map|].
    intros E. apply (f_equal (@length Q)) in E. rewrite length_map, Hy1 in E. simpl in E. lia.
  - intros H1 i Hi.
    destruct (Z.ltb_spec 1 num) as [_|]; [|lia].
    assert (Hdiv : ~ inject_Z (num - 1) == 0).
    { unfold Qeq, inject_Z; simpl. lia. }
    assert (Hinner : nth i y1 0 == inject_Z (Z.of_nat i) * ((b - a) / inject_Z (num - 1))).
    { unfold y1. destruct (Z.ltb_spec 0 (num - 1)) as [_|]; [|lia].
      assert (Hv : nth i y0 0 = inject_Z (Z.of_nat i)).
      { unfold y0. rewrite (nth_map_in inject_Z 0%Z) by (rewrite arange_length; lia).
        rewrite nth_arange by lia. reflexivity. }
      destruct Qeq_bool.
      - rewrite (nth_map_in _ 0) by lia. rewrite Hv. field. exact Hdiv.
      - rewrite (nth_map_in _ 0) by lia. rewrite Hv. reflexivity. }
    rewrite nth_set_last by (rewrite length_map; lia).
    rewrite length_map, Hy1.
    destruct (Nat.eqb_spec i (Z.to_nat num - 1)) as [->|_].
    + replace (Z.of_nat (Z.to_nat num - 1)) with (num - 1)%Z by lia. field. exact Hdiv.
    + rewrite (nth_map_in _ 0) by lia. rewrite Hinner. ring.
Qed.

(** ** The signal generator *)

(** On non-negative numbers [int] is the floor. *)
Lemma int_floor (q : Q) : (0 <= q)%Q -> int q = Qfloor q.
Proof.
  destruct q as [n d]. unfold int, Qfloor, Qle. simpl. intros H.
  apply Z.quot_div_nonneg; lia.
Qed.

Lemma vadd_length x y : length (vadd x y) = Nat.min (length x) (length y).
Proof. unfold vadd. now rewrite length_map, length_combine. Qed.

Local Open Scope R_scope.

(** What the generator returns for a positive duration: three buffers of
    [floor(fs * duration)] samples, the clean one being the pulse formula on
    the time grid, and the grid being that of [linspace], with step
    [duration / (N - 1)]. *)
Lemma generate_ppg_signal_spec (d : Q) (g : rng_state) :
  (0 < d)%Q ->
  let N := Qfloor (fs * d) in
  exists t noisy clean,
    fst (generate_ppg_signal d g) = Ok (t, noisy, clean) /\
    length t = Z.to_nat N /\ length noisy = Z.to_nat N /\
    length clean = Z.to_nat N /\
    forall i, (i < Z.to_nat N)%nat ->
      nth i clean 0 = clean_at (Q2R (nth i t 0%Q)) /\
      ((1 < N)%Z ->
       (nth i t 0 == inject_Z (Z.of_nat i) * (d / inject_Z (N - 1)))%Q).
Proof.
  intros Hd N.
  assert (Hq : (0 <= fs * d)%Q).
  { apply Qmult_le_0_compat; [discriminate | now apply Qlt_le_weak]. }
  assert (HN : (0 <= N)%Z).
  { change 0%Z with (Qfloor 0). now apply Qfloor_resp_le. }
  unfold generate_ppg_signal. rewrite (int_floor Hq). fold N.
  destruct (linspace_spec 0 d HN) as (t & Ht & Hlen & Hnth).
  rewrite Ht.
  destruct (randn (length t) g) as [draws g'] eqn:Hr.
  assert (Hdraws : length draws = Z.to_nat N).
  { unfold randn in Hr. inversion Hr. now rewrite length_map, length_seq. }
  exists t. eexists. eexists. split; [reflexivity|].
  repeat rewrite vadd_length. repeat rewrite length_map. rewrite Hdraws, Hlen.
  repeat split; try lia.
  - rewrite (nth_map_in clean_at 0 0) by (rewrite length_map; lia).
    rewrite (nth_map_in Q2R 0%Q 0) by lia. reflexivity.
  - intros H1. rewrite Hnth by lia.
    unfold Qminus. rewrite Qplus_0_l. setoid_replace (d + - 0)%Q with d by ring.
    reflexivity.
Qed.

(** The pulse wave rises on the first tenth of a second. *)
Lemma clean_at_increasing (s t : R) :
  0 <= s -> s < t -> t <= 1 / 10 -> clean_at s < clean_at t.
Proof.
  intros Hs Hst Ht. unfold clean_at.
  pose proof PI_RGT_0 as Hpi.
  assert (sin (2 * PI * 1.25 * s) < sin (2 * PI * 1.25 * t)).
  { apply sin_increasing_1; nra. }
  assert (sin (4 * PI * 1.25 * s) < sin (4 * PI * 1.25 * t)).
  { apply sin_increasing_1; nra. }
  lra.
Qed.

(** C1.  The generator at the default duration of 10 s: 10000 samples, and
    the sample of index 1 is taken at [10/9999] s, not at [1/fs = 1/1000] s;
    the clean buffer holds the pulse formula at [10/9999], which differs from
    its value at [1/1000].  The time grid includes the end point, so its step
    is [duration / (N - 1)] rather than [1 / fs]. *)
Theorem generate_ppg_signal_grid_default (g : rng_state) :
  exists t noisy clean,
    fst (generate_ppg_signal default_duration g) = Ok (t, noisy, clean) /\
    Z.of_nat (length clean) = 10000%Z /\
    (nth 1 t 0 == 10 # 9999)%Q /\
    ~ (nth 1 t 0 == 1 / fs)%Q /\
    nth 1 clean 0 = clean_at (10 / 9999) /\
    nth 1 clean 0 <> clean_at (1 / 1000).
Proof.
  destruct (@generate_ppg_signal_spec default_duration g eq_refl)
    as (t & noisy & clean & Hrun & Ht & _ & Hc & Hi).
  assert (HN : Qfloor (fs * default_duration) = 10000%Z) by reflexivity.
  rewrite HN in *.
  exists t, noisy, clean.
  destruct (Hi 1%nat ltac:(lia)) as [Hclean Hgrid].
  specialize (Hgrid ltac:(lia)).
  assert (Hq : (nth 1 t 0 == 10 # 9999)%Q).
  { rewrite Hgrid. reflexivity. }
  assert (Hr : Q2R (nth 1 t 0%Q) = 10 / 9999).
  { rewrite (Qeq_eqR _ _ Hq). unfold Q2R. simpl. reflexivity. }
  repeat split; auto.
  - lia.
  - rewrite Hq. discriminate.
  - now rewrite Hclean, Hr.
  - rewrite Hclean, Hr. apply Rgt_not_eq. apply clean_at_increasing; lra.
Qed.

Local Close Scope R_scope.

Lemma mask_select_map {A B I} (p : A -> bool) (f : I -> A) (h : I -> B) idx :
  mask_select (map p (map f idx)) (map h idx)
  = map h (filter (fun k => p (f k)) idx).
Proof.
  induction idx as [|k idx IH]; simpl; [reflexivity|].
  destruct (p (f k)); simpl; now rewrite IH.
Qed.

Lemma filter_all {A} (f : A -> bool) l :
  (forall x, In x l -> f x = true) -> filter f l = l.
Proof.
  induction l as [|x l IH]; simpl; intros H; [reflexivity|].
  rewrite (H x) by now left. f_equal. apply IH. intros; apply H; now right.
Qed.

Lemma filter_none {A} (f : A -> bool) l :
  (forall x, In x l -> f x = false) -> filter f l = [].
Proof.
  induction l as [|x l IH]; simpl; intros H; [reflexivity|].
  rewrite (H x) by now left. apply IH. intros; apply H; now right.
Qed.

(** ** The spectrum analyzer *)

Lemma fftfreq_labels (N : nat) :
  (0 < N)%nat ->
  let n := Z.of_nat N in
  arange 0 ((n - 1) / 2 + 1) ++ arange (- (n / 2)) 0
  = map (bin_label N) (seq 0 N).
Proof.
  intros HN n.
  assert (Hh : Z.to_nat ((n - 1) / 2 + 1 - 0) = ((N - 1) / 2 + 1)%nat).
  { unfold n. lia_div. }
  assert (Hl : Z.to_nat (0 - - (n / 2)) = (N / 2)%nat).
  { unfold n. lia_div. }
  assert (Hsum : ((N - 1) / 2 + 1 + N / 2 = N)%nat).
  { lia_div. }
  apply nth_ext with (d := 0%Z) (d' := 0%Z).
  - rewrite length_app, !arange_length, length_map, length_seq. lia.
  - intros i Hi. rewrite length_app, !arange_length, Hh, Hl, Hsum in Hi.
    rewrite (nth_map_in (bin_label N) 0%nat) by now rewrite length_seq.
    rewrite seq_nth by lia. simpl. unfold bin_label.
    destruct (Nat.ltb_spec i ((N - 1) / 2 + 1)) as [Hlt|Hge].
    + rewrite app_nth1 by (rewrite arange_length; lia).
      rewrite nth_arange by lia. lia.
    + rewrite app_nth2 by (rewrite arange_length; lia).
      rewrite arange_length, Hh. rewrite nth_arange by lia.
      unfold n. lia_div.
Qed.

(** The label of a bin is its signed index times the resolution
    [fs / N]. *)
Lemma bin_frequency_value (N k : nat) :
  (0 < N)%nat ->
  (bin_frequency N k == inject_Z (bin_label N k) * fs / inject_Z (Z.of_nat N))%Q.
Proof.
  intros HN. unfold bin_frequency, fs.
  assert (~ inject_Z (Z.of_nat N) == 0)%Q by (unfold Qeq, inject_Z; simpl; lia).
  field. assumption.
Qed.

Lemma bin_frequency_sign (N k : nat) :
  (k < N)%nat ->
  Qle_bool 0 (bin_frequency N k) = (k <? (N - 1) / 2 + 1)%nat.
Proof.
  intros Hk.
  assert (HN : (0 < N)%nat) by lia.
  assert (Hval : (0 < fs / inject_Z (Z.of_nat N))%Q).
  { apply Qlt_shift_div_l; [unfold Qlt, inject_Z; simpl; lia | reflexivity]. }
  assert (Heq : (bin_frequency N k
                 == inject_Z (bin_label N k) * (fs / inject_Z (Z.of_nat N)))%Q).
  { rewrite (bin_frequency_value k HN). unfold Qdiv. ring. }
  unfold bin_label in *.
  destruct (Nat.ltb_spec k ((N - 1) / 2 + 1)) as [Hlt|Hge].
  - apply Qle_bool_iff. rewrite Heq.
    apply Qmult_le_0_compat; [|now apply Qlt_le_weak].
    unfold Qle, inject_Z; simpl; lia.
  - apply not_true_is_false. intros Hle. apply Qle_bool_iff in Hle.
    rewrite Heq in Hle.
    assert (Hneg : (inject_Z (Z.of_nat k - Z.of_nat N) < 0)%Q).
    { unfold Qlt, inject_Z; simpl; lia. }
    assert (Hprod : (inject_Z (Z.of_nat k - Z.of_nat N)
                     * (fs / inject_Z (Z.of_nat N)) < 0)%Q).
    { setoid_replace 0%Q with (0 * (fs / inject_Z (Z.of_nat N)))%Q by ring.
      now apply Qmult_lt_compat_r. }
    exact (Qlt_not_le _ _ Hprod Hle).
Qed.

(** The retained bins are the first [(N-1)/2 + 1] ones. *)
Lemma retained_seq (N : nat) :
  (0 < N)%nat -> retained N = seq 0 ((N - 1) / 2 + 1).
Proof.
  intros HN. unfold retained.
  replace (seq 0 N)
    with (seq 0 ((N - 1) / 2 + 1)
          ++ seq (0 + ((N - 1) / 2 + 1)) (N - ((N - 1) / 2 + 1)))
    by (rewrite <- seq_app; f_equal; lia_div).
  rewrite filter_app.
  rewrite filter_all, filter_none; [apply app_nil_r | |].
  - intros k Hin. apply in_seq in Hin.
    rewrite bin_frequency_sign by lia. apply Nat.ltb_ge. lia.
  - intros k Hin. apply in_seq in Hin.
    rewrite bin_frequency_sign by lia_div. apply Nat.ltb_lt. lia.
Qed.

Lemma fftfreq_spec (N : nat) :
  (0 < N)%nat -> fftfreq N (1 / fs) = Ok (map (bin_frequency N) (seq 0 N)).
Proof.
  intros HN. unfold fftfreq.
  destruct (Qeq_bool (inject_Z (Z.of_nat N) * (1 / fs)) 0) eqn:E.
  - apply Qeq_bool_iff in E. exfalso. revert E.
    unfold Qeq, inject_Z, fs; simpl. lia.
  - rewrite (fftfreq_labels HN), map_map. reflexivity.
Qed.


(** The analyzer on a non-empty buffer. *)
Lemma compute_spectrum_run (data : buffer) :
  data <> [] ->
  let N := length data in
  compute_spectrum data
  = Ok (map (bin_frequency N) (retained N),
        map (fun k => (2 / INR N * abs (dft_bin data k))%R) (retained N)).
Proof.
  intros Hne N.
  assert (HN : (0 < N)%nat) by (unfold N; destruct data; simpl; [congruence | lia]).
  unfold compute_spectrum. fold N.
  replace (fft data) with (Ok (map (dft_bin data) (seq 0 N)))
    by (unfold fft, N; destruct data; [congruence | reflexivity]).
  rewrite (fftfreq_spec HN). simpl bind.
  replace (two_over N) with (Ok (2 / INR N)%R)
    by (unfold two_over; destruct N; [lia | reflexivity]).
  simpl bind. rewrite !mask_select_map. rewrite map_map. reflexivity.
Qed.

(** C3.  On a non-empty buffer of length [N] the analyzer returns the
    frequencies and magnitudes of exactly the DFT bins [k < N] whose frequency
    label is non-negative, in ascending bin order, and the magnitude of a
    retained bin is [2/N] times the absolute value of its DFT value. *)
Theorem compute_spectrum_retains_nonnegative (data : buffer) :
  data <> [] ->
  let N := length data in
  compute_spectrum data
  = Ok (map (bin_frequency N) (retained N),
        map (fun k => (2 / INR N * abs (dft_bin data k))%R) (retained N))
  /\ (forall k, In k (retained N)
                <-> (k < N)%nat /\ (0 <= bin_frequency N k)%Q)
  /\ (forall k, (bin_frequency N k
                 == inject_Z (bin_label N k) * fs / inject_Z (Z.of_nat N))%Q).
Proof.
  intros Hne N.
  assert (HN : (0 < N)%nat) by (unfold N; destruct data; simpl; [congruence | lia]).
  split; [exact (compute_spectrum_run Hne)|]. split.
  - intros k. unfold retained. rewrite filter_In, in_seq, Qle_bool_iff. intuition lia.
  - intros k. now apply bin_frequency_value.
Qed.

Lemma compute_spectrum_retains_nonnegative_witness :
  compute_spectrum [1; 2; 3; 4]%R
  = Ok (map (bin_frequency 4) (retained 4),
        map (fun k => (2 / INR 4 * abs (dft_bin [1; 2; 3; 4]%R k))%R)
            (retained 4)).
Proof.
  apply (@compute_spectrum_retains_nonnegative [1; 2; 3; 4]%R).
  discriminate.
Defined.

(** C10.  On a non-empty buffer of even length [N] the analyzer returns
    [N/2] bins: the Nyquist bin [N/2] carries the label [-fs/2], is not
    retained, and every returned frequency is below [fs/2].  On a buffer of
    odd length it returns [(N+1)/2] bins. *)
Theorem compute_spectrum_bin_count (data : buffer) :
  data <> [] ->
  let N := length data in
  exists freqs mags,
    compute_spectrum data = Ok (freqs, mags) /\
    (Nat.even N = true ->
       length freqs = (N / 2)%nat /\ length mags = (N / 2)%nat /\
       (bin_frequency N (N / 2) == - nyquist)%Q /\
       ~ In (N / 2)%nat (retained N) /\
       Forall (fun f => f < nyquist)%Q freqs) /\
    (Nat.odd N = true ->
       length freqs = ((N + 1) / 2)%nat /\ length mags = ((N + 1) / 2)%nat).
Proof.
  intros Hne N.
  assert (HN : (0 < N)%nat) by (unfold N; destruct data; simpl; [congruence | lia]).
  pose proof (compute_spectrum_run Hne) as Hrun. fold N in Hrun.
  do 2 eexists. split; [exact Hrun|].
  rewrite !length_map, (retained_seq HN), length_seq.
  split.
  - intros Hev. apply Nat.even_spec in Hev. destruct Hev as [m Hm].
    assert (Hhalf : (N / 2 = m)%nat) by lia_div.
    assert (Hh : ((N - 1) / 2 + 1 = m)%nat) by lia_div.
    rewrite Hh, Hhalf. repeat split.
    + rewrite (bin_frequency_value m HN). unfold bin_label. rewrite Hh.
      rewrite Nat.ltb_irrefl. unfold nyquist, fs. rewrite Hm.
      assert (~ inject_Z (Z.of_nat (2 * m)) == 0)%Q
        by (unfold Qeq, inject_Z; simpl; lia).
      replace (Z.of_nat m - Z.of_nat (2 * m))%Z with (- Z.of_nat m)%Z by lia.
      replace (Z.of_nat (2 * m)) with (2 * Z.of_nat m)%Z by lia.
      rewrite inject_Z_opp, inject_Z_mult.
      assert (~ inject_Z (Z.of_nat m) == 0)%Q
        by (unfold Qeq, inject_Z; simpl; lia).
      field. assumption.
    + rewrite in_seq. lia.
    + apply Forall_forall. intros f Hf. apply in_map_iff in Hf.
      destruct Hf as (k & <- & Hk). apply in_seq in Hk.
      rewrite (bin_frequency_value k HN). unfold bin_label.
      rewrite Hh. destruct (Nat.ltb_spec k m); [|lia].
      apply Qlt_shift_div_r; [unfold Qlt, inject_Z; simpl; lia|].
      change nyquist with (1000 # 2)%Q. change fs with (1000 # 1)%Q.
      unfold Qlt, Qmult, inject_Z. cbn [Qnum Qden]. lia.
  - intros Hodd. apply Nat.odd_spec in Hodd. destruct Hodd as [m Hm].
    split; lia_div.
Qed.

Lemma compute_spectrum_bin_count_witness :
  exists freqs mags,
    compute_spectrum [1; 2; 3; 4]%R = Ok (freqs, mags) /\
    length freqs = 2%nat /\ length mags = 2%nat.
Proof.
  destruct (@compute_spectrum_bin_count [1; 2; 3; 4]%R)
    as (freqs & mags & Hrun & Heven & _).
  - discriminate.
  - destruct (Heven eq_refl) as (Lf & Lm & _).
    exists freqs, mags. repeat split; assumption.
Defined.

(** ** The quality evaluator *)

Local Open Scope R_scope.

Ltac decide_reals :=
  repeat match goal with
  | |- context [Req_dec_T ?a ?b] => destruct (Req_dec_T a b); try lra
  | |- context [Rlt_dec ?a ?b] => destruct (Rlt_dec a b); try lra
  end.

Lemma var_nonempty (x : buffer) : x <> [] -> var x = Fin (variance x).
Proof. destruct x; [congruence | reflexivity]. Qed.

Lemma sum_squares_nonneg (m : R) (x : buffer) :
  0 <= sum (map (fun v => (v - m) * (v - m)) x).
Proof.
  induction x as [|v x IH]; simpl; [lra|].
  pose proof (Rle_0_sqr (v - m)) as H. unfold Rsqr in H. lra.
Qed.

Lemma variance_nonneg (x : buffer) : 0 <= variance x.
Proof.
  unfold variance. destruct x as [|v x].
  - simpl. lra.
  - apply Rmult_le_pos; [apply sum_squares_nonneg|].
    apply Rlt_le, Rinv_0_lt_compat, lt_0_INR. simpl; lia.
Qed.

Lemma subtract_same_length (a b : buffer) :
  length a = length b -> subtract a b = Ok (residual a b).
Proof. intros H. unfold subtract. rewrite H, Nat.eqb_refl. reflexivity. Qed.

Lemma residual_length (a b : buffer) :
  length a = length b -> length (residual a b) = length b.
Proof. intros H. unfold residual. rewrite length_map, length_combine. lia. Qed.

Lemma variance_nonzero_nonempty (x : buffer) : variance x <> 0 -> x <> [].
Proof. intros H ->. apply H. unfold variance. simpl. lra. Qed.

(** The SNR of one residual, as the script computes it. *)
Lemma snr_formula (clean noise : buffer) :
  clean <> [] -> variance noise <> 0 ->
  fmul (Fin 10) (log10 (fdiv (var clean) (var noise)))
  = decibels (variance clean / variance noise).
Proof.
  intros Hc Hn.
  rewrite (var_nonempty Hc), (var_nonempty (variance_nonzero_nonempty Hn)).
  pose proof (variance_nonneg clean) as Hc0.
  pose proof (variance_nonneg noise) as Hn0.
  assert (Hr : 0 <= variance clean / variance noise).
  { apply Rmult_le_pos; [assumption|]. apply Rlt_le, Rinv_0_lt_compat. lra. }
  unfold fdiv, log10, decibels, fmul.
  destruct (Req_dec_T (variance noise) 0); [contradiction|].
  destruct (Req_dec_T (variance clean / variance noise) 0).
  - decide_reals. reflexivity.
  - destruct (Rlt_dec 0 (variance clean / variance noise)); [reflexivity | lra].
Qed.



Lemma subtract_unbroadcastable (a b : buffer) :
  unbroadcastable a b -> subtract a b = Raise ValueError.
Proof.
  intros (Hab & Ha & Hb). unfold subtract.
  destruct (Nat.eqb_spec (length a) (length b)); [contradiction|].
  destruct a as [|a0 [|a1 a]], b as [|b0 [|b1 b]]; simpl in *;
    try reflexivity; congruence.
Qed.

Lemma snr_zero_variance (clean noise : buffer) :
  clean <> [] -> noise <> [] -> variance noise = 0 ->
  fmul (Fin 10) (log10 (fdiv (var clean) (var noise)))
  = if Req_dec_T (variance clean) 0 then NaN else PInf.
Proof.
  intros Hc Hn Hz. rewrite (var_nonempty Hc), (var_nonempty Hn), Hz.
  pose proof (variance_nonneg clean).
  unfold fdiv, log10, fmul.
  destruct (Req_dec_T 0 0); [|lra].
  destruct (Req_dec_T (variance clean) 0); [reflexivity|].
  destruct (Rlt_dec 0 (variance clean)); [|lra].
  decide_reals. reflexivity.
Qed.

Lemma residual_nonempty (a b : buffer) :
  length a = length b -> b <> [] -> residual a b <> [].
Proof.
  intros H Hb E. apply (f_equal (@length R)) in E.
  rewrite (residual_length _ _ H) in E. destruct b; [congruence | discriminate].
Qed.

Lemma subtract_raises (a b : buffer) (e : exn) :
  subtract a b = Raise e -> e = ValueError.
Proof.
  unfold subtract. destruct (Nat.eqb _ _); [discriminate|].
  destruct a as [|a0 [|a1 a]], b as [|b0 [|b1 b]]; simpl; congruence.
Qed.

Lemma sum_all_zero (x : buffer) : all_zero x -> sum x = 0.
Proof.
  induction 1 as [|v x Hv _ IH]; [reflexivity|].
  change (sum (v :: x)) with (v + sum x). lra.
Qed.

Lemma sum_squares_all_zero (x : buffer) :
  all_zero x -> sum (map (fun v => (v - 0) * (v - 0)) x) = 0.
Proof.
  induction 1 as [|v x Hv _ IH]; [reflexivity|].
  cbn [map]. change (sum (?a :: ?l)) with (a + sum l). rewrite IH, Hv. ring.
Qed.

Lemma variance_all_zero (x : buffer) : all_zero x -> variance x = 0.
Proof.
  intros H. unfold variance.
  assert (Hm : mean x = 0).
  { unfold mean. rewrite (sum_all_zero H). unfold Rdiv. ring. }
  rewrite Hm, (sum_squares_all_zero H). unfold Rdiv. ring.
Qed.

Lemma residual_self (x : buffer) : all_zero (residual x x).
Proof.
  unfold residual, all_zero. induction x as [|v x IH]; [constructor|].
  cbn [combine map fst snd]. constructor; [ring | exact IH].
Qed.

Lemma variance_two (u v : R) : variance [u; v] = (u - v) * (u - v) / 4.
Proof. unfold variance, mean. simpl. field. Qed.

(** The SNR against a residual that is identically zero. *)
Lemma snr_zero_residual (clean : buffer) :
  clean <> [] ->
  (0 < variance clean ->
   fmul (Fin 10) (log10 (fdiv (var clean) (var (residual clean clean)))) = PInf) /\
  (all_zero clean ->
   fmul (Fin 10) (log10 (fdiv (var clean) (var (residual clean clean)))) = NaN).
Proof.
  intros Hc.
  assert (Hr : residual clean clean <> []) by now apply residual_nonempty.
  pose proof (variance_all_zero (residual_self clean)) as Hz.
  rewrite (snr_zero_variance Hc Hr Hz). split.
  - intros Hv. destruct (Req_dec_T (variance clean) 0); [lra | reflexivity].
  - intros Ha. rewrite (variance_all_zero Ha).
    destruct (Req_dec_T 0 0); [reflexivity | lra].
Qed.

(** C6, as the code has it.  The evaluator checks nothing itself.  It fails,
    with the [ValueError] of NumPy's broadcasting, when [noisy] or [filtered]
    cannot be broadcast against [clean] (different lengths, neither of them
    1).  On non-empty buffers of one length it always returns a report, never
    an undefined result: when [noisy] or [filtered] equals [clean] sample by
    sample, so that the residual is identically zero, the SNR is plus
    infinity if [var(clean)] is positive and NaN if [clean] is identically
    zero. *)
Theorem evaluate_unchecked (clean noisy filtered : buffer) :
  (unbroadcastable noisy clean \/ unbroadcastable filtered clean ->
   evaluate clean noisy filtered = Raise ValueError) /\
  (length noisy = length clean -> length filtered = length clean ->
   clean <> [] ->
   exists r,
     evaluate clean noisy filtered = Ok r /\
     (noisy = clean -> 0 < variance clean -> snr_before r = PInf) /\
     (filtered = clean -> 0 < variance clean -> snr_after r = PInf) /\
     (noisy = clean -> all_zero clean -> snr_before r = NaN) /\
     (filtered = clean -> all_zero clean -> snr_after r = NaN)).
Proof.
  split.
  - intros [H|H]; unfold evaluate.
    + now rewrite (subtract_unbroadcastable H).
    + destruct (subtract noisy clean) eqn:E; cbn [bind].
      * now rewrite (subtract_unbroadcastable H).
      * now rewrite (subtract_raises _ _ E).
  - intros Hn Hf Hc. unfold evaluate.
    rewrite (subtract_same_length _ _ Hn), (subtract_same_length _ _ Hf).
    cbn [bind]. eexists. split; [reflexivity|].
    cbn [snr_before snr_after].
    change (map (fun p => fst p - snd p) (combine ?x ?y)) with (residual x y).
    destruct (snr_zero_residual Hc) as [Hinf Hnan].
    repeat split; intros ->; assumption.
Qed.

Lemma evaluate_unchecked_witness :
  exists r, evaluate [0; 1] [0; 2] [0; 1] = Ok r /\ snr_after r = PInf.
Proof.
  destruct (proj2 (evaluate_unchecked [0; 1] [0; 2] [0; 1]) eq_refl eq_refl)
    as (r & Hr & _ & Hinf & _).
  - discriminate.
  - exists r. split; [exact Hr|]. apply Hinf; [reflexivity|].
    rewrite variance_two. lra.
Defined.

(** C6 as stated fails: with [filtered = clean] the residual has zero
    variance and the evaluator returns a report whose [snr_after] and
    [improvement] are plus infinity; and a one-sample [clean] against
    three-sample [noisy] and [filtered] is broadcast, not rejected. *)
Lemma evaluate_no_undefined :
  (variance (residual [0; 1] [0; 1]) = 0 /\
   exists r, evaluate [0; 1] [0; 2] [0; 1] = Ok r /\
             snr_after r = PInf /\ improvement r = PInf) /\
  (length [1; 2; 3] <> length [1] /\
   exists r, evaluate [1] [1; 2; 3] [1; 2; 3] = Ok r).
Proof.
  assert (Hz : variance (residual [0; 1] [0; 1]) = 0).
  { unfold residual. simpl. rewrite variance_two. lra. }
  assert (Hn : variance (residual [0; 2] [0; 1]) <> 0).
  { unfold residual. simpl. rewrite variance_two. lra. }
  assert (Hc : [0; 1] <> @nil R) by discriminate.
  split; [split|split].
  - exact Hz.
  - eexists. split; [reflexivity|].
    cbn [snr_after improvement snr_before].
    change (map (fun p => fst p - snd p) (combine ?x ?y)) with (residual x y).
    rewrite (snr_zero_variance Hc (@residual_nonempty [0; 1] [0; 1] eq_refl Hc) Hz).
    rewrite (snr_formula Hc Hn).
    rewrite variance_two.
    destruct (Req_dec_T ((0 - 1) * (0 - 1) / 4) 0) as [E|_]; [lra|].
    split; [reflexivity|].
    unfold decibels. destruct (Req_dec_T _ 0); reflexivity.
  - simpl. lia.
  - eexists. reflexivity.
Qed.

(** ** The filter designer *)

Local Close Scope R_scope.

Lemma Qltb_lt (x y : Q) : Qltb x y = true <-> (x < y)%Q.
Proof.
  unfold Qltb. rewrite negb_true_iff. split.
  - intros H. apply Qnot_le_lt. intros Hle. apply Qle_bool_iff in Hle. congruence.
  - intros H. apply not_true_is_false. intros Hle. apply Qle_bool_iff in Hle.
    exact (Qlt_not_le _ _ H Hle).
Qed.

Lemma normalized_lt_1 (f : Q) : (f / nyquist < 1 <-> f < nyquist)%Q.
Proof.
  change nyquist with (1000 # 2)%Q. unfold Qdiv, Qlt, Qmult, Qinv; simpl. lia.
Qed.

Lemma normalized_pos (f : Q) : (0 < f / nyquist <-> 0 < f)%Q.
Proof.
  change nyquist with (1000 # 2)%Q. unfold Qdiv, Qlt, Qmult, Qinv; simpl. lia.
Qed.

(** [iirnotch] rejects a normalised centre outside [[0, 1]] and a zero
    quality factor, nothing else. *)
Lemma iirnotch_fails (w0 q : Q) :
  fails (iirnotch w0 q) <-> (w0 < 0 \/ 1 < w0 \/ q == 0)%Q.
Proof.
  unfold iirnotch, Qgtb.
  assert (Hw : (2 * w0 / 2 == w0)%Q) by field.
  destruct (Qltb 1 (2 * w0 / 2)) eqn:E1; [|destruct (Qltb (2 * w0 / 2) 0) eqn:E2];
    cbn [orb].
  - apply Qltb_lt in E1. rewrite Hw in E1. split; [auto | intros _; eexists; reflexivity].
  - apply Qltb_lt in E2. rewrite Hw in E2. split; [auto | intros _; eexists; reflexivity].
  - assert (H1 : ~ (1 < w0)%Q).
    { intros H. rewrite <- Hw in H. apply Qltb_lt in H. congruence. }
    assert (H2 : ~ (w0 < 0)%Q).
    { intros H. rewrite <- Hw in H. apply Qltb_lt in H. congruence. }
    destruct (Qeq_bool q 0) eqn:E3.
    + apply Qeq_bool_iff in E3. split; [auto | intros _; eexists; reflexivity].
    + apply Qeq_bool_neq in E3. split.
      * intros [e He]. discriminate.
      * intros [H|[H|H]]; contradiction.
Qed.

Lemma buttap_ok (N : Z) :
  (0 <= N)%Z ->
  buttap N
  = Ok ([], map (fun m => Cneg (Cexp_i (PI * IZR m / (2 * IZR N))))
                (arange2 (- N + 1) N), 1%R).
Proof. intros H. unfold buttap. destruct (Z.ltb_spec N 0); [lia | reflexivity]. Qed.

(** [butter] rejects a normalised cut-off outside the open interval
    [(0, 1)] and a negative order, nothing else. *)
Lemma butter_fails (N : Z) (Wn : Q) (bt : btype) :
  fails (butter N Wn bt) <-> (Wn <= 0 \/ 1 <= Wn)%Q \/ (N < 0)%Z.
Proof.
  unfold butter.
  destruct (Qle_bool Wn 0) eqn:E0.
  - apply Qle_bool_iff in E0. split; [auto | intros _; eexists; reflexivity].
  - assert (H0 : ~ (Wn <= 0)%Q) by (intros H; apply Qle_bool_iff in H; congruence).
    unfold buttap. destruct (Z.ltb_spec N 0) as [Hn|Hn]; cbn [bind].
    + split; [auto | intros _; eexists; reflexivity].
    + cbn [orb]. destruct (Qle_bool 1 Wn) eqn:E1.
      * apply Qle_bool_iff in E1. split; [auto | intros _; eexists; reflexivity].
      * assert (H1 : ~ (1 <= Wn)%Q) by (intros H; apply Qle_bool_iff in H; congruence).
        split.
        -- intros [e He]. destruct bt; cbn in He; discriminate.
        -- intros [[H|H]|H]; try contradiction; lia.
Qed.

(** C5, as the code has it.  The filter functions check nothing themselves;
    a design fails exactly when the library routine rejects its arguments:
    a notch when the centre frequency is below 0 or above [fs/2] or the
    quality factor is 0, a high-pass or low-pass when the cut-off is not
    strictly inside [(0, fs/2)] or the order is negative.  In particular the
    high-pass design with cut-off 600 Hz and order 4 fails. *)
Theorem design_failures :
  (forall f q, fails (design (Notch f q))
               <-> (f < 0 \/ nyquist < f \/ q == 0)%Q) /\
  (forall f n, fails (design (HighPass f n))
               <-> (f <= 0 \/ nyquist <= f)%Q \/ (n < 0)%Z) /\
  (forall f n, fails (design (LowPass f n))
               <-> (f <= 0 \/ nyquist <= f)%Q \/ (n < 0)%Z) /\
  design (HighPass 600 4) = Raise ValueError.
Proof.
  assert (Hle1 : forall f, (1 <= f / nyquist <-> nyquist <= f)%Q).
  { intros f. change nyquist with (1000 # 2)%Q.
    unfold Qdiv, Qle, Qmult, Qinv; simpl. lia. }
  assert (Hle0 : forall f, (f / nyquist <= 0 <-> f <= 0)%Q).
  { intros f. change nyquist with (1000 # 2)%Q.
    unfold Qdiv, Qle, Qmult, Qinv; simpl. lia. }
  assert (Hlt0 : forall f, (f / nyquist < 0 <-> f < 0)%Q).
  { intros f. change nyquist with (1000 # 2)%Q.
    unfold Qdiv, Qlt, Qmult, Qinv; simpl. lia. }
  assert (Hgt1 : forall f, (1 < f / nyquist <-> nyquist < f)%Q).
  { intros f. change nyquist with (1000 # 2)%Q.
    unfold Qdiv, Qlt, Qmult, Qinv; simpl. lia. }
  repeat split.
  - intros H. apply iirnotch_fails in H. rewrite Hlt0, Hgt1 in H. exact H.
  - intros H. apply iirnotch_fails. rewrite Hlt0, Hgt1. exact H.
  - intros H. apply butter_fails in H. rewrite Hle0, Hle1 in H. exact H.
  - intros H. apply butter_fails. rewrite Hle0, Hle1. exact H.
  - intros H. apply butter_fails in H. rewrite Hle0, Hle1 in H. exact H.
  - intros H. apply butter_fails. rewrite Hle0, Hle1. exact H.
Qed.

(** C5 as stated fails: a notch with a negative quality factor, with its
    centre at the Nyquist frequency or at 0 Hz is designed without error. *)
Lemma design_accepts_invalid :
  (- 30 <= 0)%Q /\ succeeds (design (Notch 50 (- 30))) /\
  ~ (500 < nyquist)%Q /\ succeeds (design (Notch 500 30)) /\
  ~ (0 < 0)%Q /\ succeeds (design (Notch 0 30)).
Proof.
  repeat split; try discriminate; eexists; reflexivity.
Qed.

(** Every filter function is "design, then apply". *)
Lemma stage_design_apply (spec : filter_spec) (x : buffer) :
  stage spec x = (c <- design spec ;; apply_filter c x)%result.
Proof.
  destruct spec; cbn [stage design];
    unfold notch_filter, high_pass_filter, low_pass_filter, apply_filter;
    match goal with |- bind ?m _ = _ => destruct m as [[b a]|e] end;
    reflexivity.
Qed.






(** ** The cascade *)

(** C2.  The cascade is the pipeline of exactly three stages, notch,
    high-pass, low-pass in this order with the default parameters; each stage
    designs its coefficients and applies them to the buffer the previous
    stage returned, and the result is that of the low-pass stage. *)
Theorem cascade_stages (noisy : buffer) :
  cascade noisy = run_stages default_stages noisy /\
  run_stages default_stages noisy
  = (step1 <- (c <- design (Notch 50 30) ;; apply_filter c noisy) ;;
     step2 <- (c <- design (HighPass 0.5 4) ;; apply_filter c step1) ;;
     c <- design (LowPass 10 4) ;; apply_filter c step2)%result.
Proof.
  assert (E : cascade noisy
              = (step1 <- stage (Notch 50 30) noisy ;;
                 step2 <- stage (HighPass 0.5 4) step1 ;;
                 stage (LowPass 10 4) step2)%result) by reflexivity.
  assert (R : run_stages default_stages noisy
              = (step1 <- (c <- design (Notch 50 30) ;; apply_filter c noisy) ;;
                 step2 <- (c <- design (HighPass 0.5 4) ;; apply_filter c step1) ;;
                 c <- design (LowPass 10 4) ;; apply_filter c step2)%result).
  { unfold run_stages, default_stages, default_notch_freq,
      default_quality_factor, default_highpass_cutoff, default_lowpass_cutoff,
      default_order.
    cbn [fold_left bind].
    destruct (design (Notch 50 30)) as [c1|e1]; [|reflexivity].
    cbn [bind]. destruct (apply_filter c1 noisy) as [s1|e1]; reflexivity. }
  split; [|exact R].
  rewrite E, R. rewrite stage_design_apply.
  destruct (c <- design (Notch 50 30) ;; apply_filter c noisy)%result
    as [s1|e1]; [|reflexivity].
  cbn [bind]. rewrite stage_design_apply.
  destruct (c <- design (HighPass 0.5 4) ;; apply_filter c s1)%result
    as [s2|e2]; [|reflexivity].
  cbn [bind]. apply stage_design_apply.
Qed.

(** ** The filter applicator *)

Local Open Scope R_scope.

Lemma odd_ext_length (x : buffer) (n : nat) :
  (n < length x)%nat -> length (odd_ext x n) = (n + length x + n)%nat.
Proof.
  intros H. unfold odd_ext.
  rewrite !length_app, !length_map, !length_rev, !length_firstn, !length_skipn.
  lia.
Qed.

Lemma df2t_run_length (b a z : list R) (x : buffer) :
  length (fst (df2t_run b a z x)) = length x.
Proof.
  revert z. induction x as [|x0 x IH]; intros z; simpl; [reflexivity|].
  specialize (IH (df2t_state z (tl b) (tl a) x0 (nth 0 z 0 + nth 0 b 0 * x0))).
  destruct (df2t_run b a _ x). simpl in *. now rewrite IH.
Qed.

(** [lfilter] runs when [a[0]] is not zero and the delay line has the right
    length; its output is as long as its input. *)
Lemma lfilter_ok (b a : list R) (x : buffer) (zi : list R) :
  nth 0 a 0 <> 0 ->
  length zi = (Nat.max (length a) (length b) - 1)%nat ->
  exists y zf, lfilter b a x zi = Ok (y, zf) /\ length y = length x /\
               (y, zf) = df2t_run (fst (normalize b a)) (snd (normalize b a)) zi x.
Proof.
  intros Ha Hz. unfold lfilter.
  destruct a as [|a0 a]; [simpl in Ha; lra|]. simpl in Ha.
  destruct (Req_dec_T a0 0); [contradiction|].
  rewrite Hz, Nat.eqb_refl. cbn [negb].
  destruct (normalize b (a0 :: a)) as [b' a'] eqn:En.
  destruct (df2t_run b' a' zi x) as [y zf] eqn:Er.
  exists y, zf. split; [reflexivity|]. split; [|now cbn [fst snd]; rewrite Er].
  pose proof (df2t_run_length b' a' zi x) as Hl. now rewrite Er in Hl.
Qed.

Lemma strip_zeros_head (a : list R) : nth 0 a 0 <> 0 -> strip_zeros a = a.
Proof.
  destruct a as [|a0 [|a1 a]]; simpl; try reflexivity.
  intros H. destruct (Req_dec_T a0 0); [contradiction | reflexivity].
Qed.

Lemma pad_to_length (n : nat) (c : list R) :
  (length c <= n)%nat -> length (pad_to n c) = n.
Proof. intros H. unfold pad_to. rewrite length_app, repeat_length. lia. Qed.

Lemma sum_app (x y : list R) : sum (x ++ y) = sum x + sum y.
Proof. induction x; simpl; [lra | rewrite IHx; lra]. Qed.

Lemma sum_repeat_0 (n : nat) : sum (repeat 0 n) = 0.
Proof. induction n; simpl; lra. Qed.

Lemma sum_scale (c : R) (x : list R) : sum (map (fun v => v / c) x) = sum x / c.
Proof. induction x; simpl; [lra | rewrite IHx; lra]. Qed.

Lemma normalize_lengths (b a : list R) :
  let n := Nat.max (length a) (length b) in
  length (fst (normalize b a)) = n /\ length (snd (normalize b a)) = n.
Proof.
  unfold normalize. cbn [fst snd]. split; apply pad_to_length; rewrite length_map; lia.
Qed.

Lemma steady_state_length (asum csum zi0 : R) (a B : list R) :
  length (steady_state asum csum zi0 a B) = Nat.min (length a) (length B).
Proof.
  revert asum csum B. induction a as [|ak a IH]; intros asum csum [|Bk B];
    simpl; try reflexivity. now rewrite IH.
Qed.

(** The steady state of a proper filter exists and has one entry per
    delay. *)
Lemma lfilter_zi_ok (b a : list R) :
  proper (b, a) ->
  exists zi, lfilter_zi b a = Ok zi /\
             length zi = (Nat.max (length a) (length b) - 1)%nat.
Proof.
  intros (Ha & Hs & Hn). cbn [fst snd] in *.
  unfold lfilter_zi. rewrite (strip_zeros_head _ Ha).
  destruct a as [|a0 a]; [simpl in Ha; lra|].
  destruct (normalize_lengths b (a0 :: a)) as [Lb La].
  destruct (normalize b (a0 :: a)) as [b' a'] eqn:En. cbn [fst snd] in Lb, La.
  assert (Ha' : a' = pad_to (Nat.max (length (a0 :: a)) (length b))
                       (map (fun v => v / a0) (a0 :: a))).
  { unfold normalize in En. now inversion En. }
  destruct (Nat.ltb_spec (length a') 2); [lia|].
  assert (H0 : nth 0 a' 0 = 1).
  { rewrite Ha'. unfold pad_to. simpl. simpl in Ha. now field. }
  destruct (Req_dec_T (nth 0 a' 0) 0); [lra|].
  assert (Hsum : sum a' = sum (a0 :: a) / a0).
  { rewrite Ha'. unfold pad_to. now rewrite sum_app, sum_repeat_0, sum_scale, Rplus_0_r. }
  destruct (Req_dec_T (sum a') 0) as [E|_].
  { exfalso. rewrite Hsum in E. simpl in Ha.
    apply Hs. apply (Rmult_eq_compat_r a0) in E. field_simplify in E; lra. }
  eexists. split; [reflexivity|].
  cbn [length]. rewrite steady_state_length, length_firstn, length_map, length_combine.
  destruct a' as [|? a'], b' as [|? b']; simpl in *; lia.
Qed.

Lemma slice_both_length {A} (edge : nat) (l : list A) :
  length (slice_both edge l) = (length l - edge - edge)%nat.
Proof. unfold slice_both. rewrite length_firstn, length_skipn. lia. Qed.

Lemma all_zero_nth (x : list R) (i : nat) : all_zero x -> nth i x 0 = 0.
Proof.
  intros H. destruct (Nat.lt_ge_cases i (length x)) as [Hi|Hi].
  - unfold all_zero in H. rewrite Forall_forall in H. apply H. now apply nth_In.
  - now apply nth_overflow.
Qed.

Lemma all_zero_repeat (x : list R) : all_zero x -> x = repeat 0 (length x).
Proof. induction 1; simpl; [reflexivity | congruence]. Qed.

Lemma repeat_all_zero (n : nat) : all_zero (repeat 0 n).
Proof. induction n; simpl; constructor; auto. Qed.

Lemma all_zero_firstn (n : nat) (x : list R) :
  all_zero x -> all_zero (firstn n x).
Proof.
  intros H. revert n. induction H; intros [|n]; simpl; constructor; auto.
  apply IHForall.
Qed.

Lemma all_zero_skipn (n : nat) (x : list R) :
  all_zero x -> all_zero (skipn n x).
Proof.
  intros H. revert n. induction H; intros [|n]; simpl; auto; try constructor; auto.
Qed.

Lemma all_zero_rev (x : list R) : all_zero x -> all_zero (rev x).
Proof. apply Forall_rev. Qed.

Lemma all_zero_scale (zi : list R) (v : R) :
  v = 0 -> all_zero (map (fun u => u * v) zi).
Proof.
  intros ->. induction zi; simpl; constructor; [lra | assumption].
Qed.

Lemma all_zero_reflect (x : list R) (e : R) :
  e = 0 -> all_zero x -> all_zero (map (fun v => 2 * e - v) x).
Proof.
  intros -> H. induction H; simpl; constructor; [lra | assumption].
Qed.

Lemma odd_ext_zero (x : buffer) (n : nat) : all_zero x -> all_zero (odd_ext x n).
Proof.
  intros H. unfold odd_ext, all_zero. rewrite !Forall_app. repeat split.
  - apply all_zero_reflect; [now apply all_zero_nth|].
    apply all_zero_rev, all_zero_firstn, all_zero_skipn, H.
  - exact H.
  - apply all_zero_reflect; [now apply all_zero_nth|].
    apply all_zero_rev, all_zero_firstn, all_zero_skipn, H.
Qed.

Lemma df2t_state_zero (z b a : list R) :
  all_zero z -> all_zero (df2t_state z b a 0 0).
Proof.
  intros H. revert b a. induction H as [|z0 z Hz0 Hz IH]; intros b a; simpl.
  - constructor.
  - destruct b as [|bi b]; [constructor|]. destruct a as [|ai a]; constructor.
    + rewrite (all_zero_nth 0 Hz). lra.
    + apply IH.
Qed.

Lemma df2t_run_zero (b a z : list R) (x : buffer) :
  all_zero z -> all_zero x ->
  all_zero (fst (df2t_run b a z x)) /\ all_zero (snd (df2t_run b a z x)).
Proof.
  intros Hz Hx. revert z Hz. induction Hx as [|x0 x Hx0 Hx IH]; intros z Hz; simpl.
  - split; [constructor | exact Hz].
  - subst x0. rewrite (all_zero_nth 0 Hz).
    replace (0 + nth 0 b 0 * 0) with 0 by lra.
    destruct (IH _ (df2t_state_zero (tl b) (tl a) Hz)) as [Hy Hf].
    destruct (df2t_run b a _ x) as [y zf]. simpl in *.
    split; [constructor; auto | exact Hf].
Qed.

(** What [filtfilt] does on a proper filter and a long enough buffer. *)
Lemma filtfilt_spec (b a : list R) (x : buffer) :
  proper (b, a) -> (padlen (b, a) < length x)%nat ->
  exists y, filtfilt b a x = Ok y /\ length y = length x /\
            (all_zero x -> all_zero y).
Proof.
  intros Hp Hlen. unfold padlen in Hlen. cbn [fst snd] in Hlen.
  destruct (lfilter_zi_ok Hp) as (zi & Hzi & Lzi).
  destruct Hp as (Ha & _ & Hn). cbn [fst snd] in Ha, Hn.
  unfold filtfilt.
  set (edge := (Nat.max (length a) (length b) * 3)%nat) in *.
  destruct (Nat.leb_spec (length x) edge); [lia|].
  destruct (Nat.ltb_spec 0 edge); [|lia].
  rewrite Hzi. cbn [bind].
  set (ext := odd_ext x edge).
  destruct (@lfilter_ok b a ext (map (fun v => v * nth 0 ext 0) zi) Ha)
    as (y1 & z1 & H1 & L1 & R1); [now rewrite length_map|].
  rewrite H1. cbn [bind].
  destruct (@lfilter_ok b a (rev y1)
              (map (fun v => v * nth (length y1 - 1) y1 0) zi) Ha)
    as (y2 & z2 & H2 & L2 & R2); [now rewrite length_map|].
  rewrite H2. cbn [bind].
  eexists. split; [reflexivity|]. split.
  - rewrite slice_both_length, length_rev, L2, length_rev, L1.
    unfold ext. rewrite odd_ext_length by lia. lia.
  - intros Hx.
    assert (Hext : all_zero ext) by now apply odd_ext_zero.
    assert (Hy1 : all_zero y1).
    { pose proof (df2t_run_zero (fst (normalize b a)) (snd (normalize b a))
                    (all_zero_scale zi (all_zero_nth 0 Hext)) Hext) as [Hy _].
      now rewrite <- R1 in Hy. }
    assert (Hy2 : all_zero y2).
    { pose proof (df2t_run_zero (fst (normalize b a)) (snd (normalize b a))
                    (all_zero_scale zi (all_zero_nth (length y1 - 1) Hy1))
                    (all_zero_rev Hy1)) as [Hy _].
      now rewrite <- R2 in Hy. }
    unfold slice_both. apply all_zero_firstn, all_zero_skipn, all_zero_rev, Hy2.
Qed.


(** ** Complex arithmetic *)

Ltac c_unfold :=
  unfold Cmul, Cdiv, Cadd, Csub, Cneg, Cconj, Cnorm2, RtoC, C1, C0, Re, Im in *;
  cbn [fst snd] in *.

Ltac c_ring :=
  repeat match goal with z : C |- _ => destruct z end;
  c_unfold; f_equal; ring.

Lemma Cmul_comm (z w : C) : Cmul z w = Cmul w z.
Proof. c_ring. Qed.

Lemma Cmul_assoc (u v w : C) : Cmul u (Cmul v w) = Cmul (Cmul u v) w.
Proof. c_ring. Qed.

Lemma Cmul_1_l (z : C) : Cmul C1 z = z.
Proof. c_ring. Qed.

Lemma Cmul_1_r (z : C) : Cmul z C1 = z.
Proof. c_ring. Qed.

Lemma Cadd_0_r (z : C) : Cadd z C0 = z.
Proof. c_ring. Qed.

Lemma Cnorm2_conj (z : C) : Cnorm2 (Cconj z) = Cnorm2 z.
Proof. destruct z. c_unfold. ring. Qed.

Lemma Cnorm2_mul (z w : C) : Cnorm2 (Cmul z w) = Cnorm2 z * Cnorm2 w.
Proof. destruct z, w. c_unfold. ring. Qed.

Lemma Cconj_mul (z w : C) : Cconj (Cmul z w) = Cmul (Cconj z) (Cconj w).
Proof. c_ring. Qed.

Lemma Cconj_add (z w : C) : Cconj (Cadd z w) = Cadd (Cconj z) (Cconj w).
Proof. c_ring. Qed.

Lemma Cconj_sub (z w : C) : Cconj (Csub z w) = Csub (Cconj z) (Cconj w).
Proof. c_ring. Qed.

Lemma Cconj_RtoC (x : R) : Cconj (RtoC x) = RtoC x.
Proof. c_unfold. f_equal. ring. Qed.

Lemma Cconj_C1 : Cconj C1 = C1.
Proof. c_unfold. f_equal. ring. Qed.

Lemma Cconj_div (z w : C) : Cconj (Cdiv z w) = Cdiv (Cconj z) (Cconj w).
Proof.
  unfold Cdiv at 2. rewrite Cnorm2_conj. destruct z, w. c_unfold.
  f_equal; unfold Rdiv; ring.
Qed.

Lemma Cprod_app (l1 l2 : list C) :
  Cprod (l1 ++ l2) = Cmul (Cprod l1) (Cprod l2).
Proof.
  induction l1 as [|z l1 IH]; simpl.
  - now rewrite Cmul_1_l.
  - now rewrite IH, Cmul_assoc.
Qed.

Lemma Cprod_rev (l : list C) : Cprod (rev l) = Cprod l.
Proof.
  induction l as [|z l IH]; simpl; [reflexivity|].
  rewrite Cprod_app, IH. simpl. rewrite Cmul_1_r. apply Cmul_comm.
Qed.

Lemma Cconj_prod (l : list C) : Cconj (Cprod l) = Cprod (map Cconj l).
Proof.
  induction l as [|z l IH]; simpl; [apply Cconj_C1|].
  now rewrite Cconj_mul, IH.
Qed.

Lemma Cnorm2_prod (l : list C) :
  Forall (fun z => Cnorm2 z <> 0) l -> Cnorm2 (Cprod l) <> 0.
Proof.
  induction 1 as [|z l Hz Hl IH]; simpl.
  - c_unfold. lra.
  - rewrite Cnorm2_mul. now apply Rmult_integral_contrapositive_currified.
Qed.

(** A product of factors that is closed under conjugation is real. *)
Lemma self_conjugate_product (l : list C) :
  map Cconj l = rev l ->
  Forall (fun z => Cnorm2 z <> 0) l ->
  Re (Cprod l) <> 0.
Proof.
  intros Hsym Hnz.
  assert (Hc : Cconj (Cprod l) = Cprod l).
  { now rewrite Cconj_prod, Hsym, Cprod_rev. }
  pose proof (Cnorm2_prod Hnz) as Hn.
  destruct (Cprod l) as [x y]. c_unfold.
  assert (y = 0) by (inversion Hc; lra).
  subst y. intros ->. apply Hn. ring.
Qed.

Lemma map_conj_commute (h : C -> C) (l : list C) :
  (forall z, Cconj (h z) = h (Cconj z)) ->
  map Cconj l = rev l ->
  map Cconj (map h l) = rev (map h l).
Proof.
  intros Hh Hl. rewrite map_map.
  rewrite (map_ext _ (fun z => h (Cconj z)) Hh).
  now rewrite <- (map_map Cconj h), Hl, map_rev.
Qed.

(** ** Polynomials from roots *)

Lemma mul_linear_length (a : list C) (r : C) :
  length (mul_linear a r) = S (length a).
Proof.
  unfold mul_linear. rewrite length_map, length_combine, length_app.
  simpl. rewrite length_map. lia.
Qed.

Lemma poly_acc_length (zs acc : list C) :
  length (fold_left mul_linear zs acc) = (length zs + length acc)%nat.
Proof.
  revert acc. induction zs as [|z zs IH]; intros acc; simpl; [reflexivity|].
  rewrite IH, mul_linear_length. lia.
Qed.

Lemma poly_length (zs : list C) : length (poly zs) = S (length zs).
Proof. unfold poly. rewrite poly_acc_length. simpl. lia. Qed.

Lemma mul_linear_head (a : list C) (r : C) :
  a <> [] -> nth 0 (mul_linear a r) C0 = nth 0 a C0.
Proof.
  destruct a as [|a0 a]; [congruence|]. intros _. simpl. apply Cadd_0_r.
Qed.

Lemma poly_acc_head (zs acc : list C) :
  acc <> [] -> nth 0 (fold_left mul_linear zs acc) C0 = nth 0 acc C0.
Proof.
  revert acc. induction zs as [|z zs IH]; intros acc Hacc; simpl; [reflexivity|].
  rewrite IH.
  - now apply mul_linear_head.
  - intros E. apply (f_equal (@length C)) in E.
    rewrite mul_linear_length in E. discriminate.
Qed.

Lemma poly_head (zs : list C) : nth 0 (poly zs) C0 = C1.
Proof. unfold poly. rewrite poly_acc_head; [reflexivity | discriminate]. Qed.

Lemma Csum_convolve (c v : C) (a : list C) :
  Csum (map (fun p => Cadd (fst p) (snd p))
            (combine (a ++ [C0]) (v :: map (Cmul c) a)))
  = Cadd v (Cadd (Csum a) (Cmul c (Csum a))).
Proof.
  revert v. induction a as [|x a IH]; intros v.
  - simpl. c_ring.
  - cbn [app map combine Csum fold_right fst snd].
    fold (Csum (map (fun p => Cadd (fst p) (snd p))
                 (combine (a ++ [C0]) (Cmul c x :: map (Cmul c) a)))).
    rewrite IH. fold (Csum a). c_ring.
Qed.

Lemma Csum_mul_linear (a : list C) (r : C) :
  Csum (mul_linear a r) = Cmul (Csum a) (Csub C1 r).
Proof. unfold mul_linear. rewrite Csum_convolve. c_ring. Qed.

Lemma Csum_poly_acc (zs acc : list C) :
  Csum (fold_left mul_linear zs acc)
  = Cmul (Csum acc) (Cprod (map (Csub C1) zs)).
Proof.
  revert acc. induction zs as [|z zs IH]; intros acc; simpl.
  - now rewrite Cmul_1_r.
  - now rewrite IH, Csum_mul_linear, Cmul_assoc.
Qed.

(** The coefficients of a polynomial add up to its value at 1. *)
Lemma Csum_poly (zs : list C) : Csum (poly zs) = Cprod (map (Csub C1) zs).
Proof.
  unfold poly. rewrite Csum_poly_acc. simpl. rewrite Cadd_0_r. apply Cmul_1_l.
Qed.

Lemma sum_map_Re (cs : list C) : sum (map Re cs) = Re (Csum cs).
Proof. induction cs as [|c cs IH]; simpl; [reflexivity|]. now rewrite IH. Qed.

(** ** Butterworth designs *)

Lemma arange2_count (N : Z) :
  (0 <= N)%Z -> Z.to_nat ((N - (- N + 1) + 1) / 2) = Z.to_nat N.
Proof.
  intros H. f_equal.
  replace (N - (- N + 1) + 1)%Z with (N * 2)%Z by lia. apply Z.div_mul. lia.
Qed.

Lemma arange2_length (N : Z) :
  (0 <= N)%Z -> length (arange2 (- N + 1) N) = Z.to_nat N.
Proof.
  intros H. unfold arange2. now rewrite length_map, length_seq, arange2_count.
Qed.

Lemma nth_arange2 (N : Z) (i : nat) :
  (0 <= N)%Z -> (i < Z.to_nat N)%nat ->
  nth i (arange2 (- N + 1) N) 0%Z = (- N + 1 + 2 * Z.of_nat i)%Z.
Proof.
  intros H Hi. unfold arange2. rewrite (arange2_count H).
  rewrite (nth_map_in (fun j => (- N + 1 + 2 * Z.of_nat j)%Z) 0%nat)
    by now rewrite length_seq.
  now rewrite seq_nth.
Qed.

Lemma buttap_poles_length (N : Z) :
  (0 <= N)%Z -> length (buttap_poles N) = Z.to_nat N.
Proof. intros H. unfold buttap_poles. now rewrite length_map, arange2_length. Qed.

Lemma nth_buttap_poles (N : Z) (i : nat) :
  (0 <= N)%Z -> (i < Z.to_nat N)%nat ->
  nth i (buttap_poles N) C0
  = Cneg (Cexp_i (PI * IZR (- N + 1 + 2 * Z.of_nat i) / (2 * IZR N))).
Proof.
  intros H Hi. unfold buttap_poles.
  rewrite (nth_map_in _ 0%Z) by now rewrite arange2_length.
  now rewrite nth_arange2.
Qed.

(** The prototype poles are closed under conjugation: conjugating the list
    reverses it. *)
Lemma buttap_poles_conj (N : Z) :
  (0 <= N)%Z -> map Cconj (buttap_poles N) = rev (buttap_poles N).
Proof.
  intros H. apply nth_ext with (d := C0) (d' := C0).
  - now rewrite length_map, length_rev.
  - intros i Hi. rewrite length_map, buttap_poles_length in Hi by assumption.
    rewrite (nth_map_in Cconj C0) by now rewrite buttap_poles_length.
    rewrite rev_nth by now rewrite buttap_poles_length.
    rewrite buttap_poles_length by assumption.
    rewrite !nth_buttap_poles by (assumption || lia).
    replace (- N + 1 + 2 * Z.of_nat (Z.to_nat N - S i))%Z
      with (- (- N + 1 + 2 * Z.of_nat i))%Z by lia.
    rewrite opp_IZR.
    replace (PI * - IZR (- N + 1 + 2 * Z.of_nat i) / (2 * IZR N))
      with (- (PI * IZR (- N + 1 + 2 * Z.of_nat i) / (2 * IZR N)))
      by (unfold Rdiv; ring).
    unfold Cconj, Cneg, Cexp_i. cbn [fst snd]. now rewrite cos_neg, sin_neg.
Qed.

(** The prototype poles lie in the open left half plane. *)
Lemma buttap_poles_left (N : Z) :
  (1 <= N)%Z -> Forall (fun p => fst p < 0) (buttap_poles N).
Proof.
  intros H. apply Forall_forall. intros p Hp.
  apply (In_nth _ _ C0) in Hp. destruct Hp as (i & Hi & <-).
  rewrite buttap_poles_length in Hi by lia.
  rewrite nth_buttap_poles by lia.
  set (m := (- N + 1 + 2 * Z.of_nat i)%Z).
  assert (Hm : (- N < m < N)%Z) by (unfold m; lia).
  assert (HN : 0 < IZR N) by (apply IZR_lt; lia).
  assert (Hlo : - IZR N < IZR m) by (rewrite <- opp_IZR; apply IZR_lt; lia).
  assert (Hhi : IZR m < IZR N) by (apply IZR_lt; lia).
  pose proof PI_RGT_0 as Hpi.
  set (t := IZR m / IZR N).
  assert (Ht : -1 < t < 1).
  { unfold t. split.
    - apply Rmult_lt_reg_r with (IZR N); [assumption|].
      unfold Rdiv. rewrite Rmult_assoc, Rinv_l by lra. lra.
    - apply Rmult_lt_reg_r with (IZR N); [assumption|].
      unfold Rdiv. rewrite Rmult_assoc, Rinv_l by lra. lra. }
  replace (PI * IZR m / (2 * IZR N)) with (PI / 2 * t)
    by (unfold t; field; lra).
  unfold Cneg, Cexp_i. cbn [fst].
  assert (0 < cos (PI / 2 * t)) by (apply cos_gt_0; nra).
  lra.
Qed.

Lemma lp2lp_left (w : R) (p : C) :
  0 < w -> fst p < 0 -> fst (Cmul (RtoC w) p) < 0.
Proof. destruct p as [x y]. c_unfold. intros. nra. Qed.

Lemma lp2hp_left (w : R) (p : C) :
  0 < w -> fst p < 0 -> fst (Cdiv (RtoC w) p) < 0.
Proof.
  destruct p as [x y]. c_unfold. intros Hw Hx.
  assert (0 < x * x + y * y) by nra.
  replace ((w * x + 0 * y) / (x * x + y * y))
    with (- (w * - x / (x * x + y * y))) by (field; lra).
  apply Ropp_lt_gt_0_contravar. apply Rdiv_lt_0_compat; nra.
Qed.

(** A pole in the open left half plane is not mapped to [z = 1]. *)
Lemma bilinear_factor_nonzero (p : C) :
  fst p < 0 -> Cnorm2 (Csub C1 (bilinear_map p)) <> 0.
Proof.
  destruct p as [x y]. unfold bilinear_map. c_unfold. intros Hx.
  set (n := (2 * 2 - x) * (2 * 2 - x) + (0 - y) * (0 - y)).
  assert (Hn : 0 < n) by (unfold n; nra).
  set (re := ((2 * 2 + x) * (2 * 2 - x) + (0 + y) * (0 - y)) / n).
  set (im := ((0 + y) * (2 * 2 - x) - (2 * 2 + x) * (0 - y)) / n).
  intros E.
  assert (Hre : 1 - re = 0) by nra.
  assert (Him : 0 - im = 0) by nra.
  assert (Hy : y = 0).
  { assert (im * n = 8 * y) by (unfold im; field_simplify; lra).
    nra. }
  assert (re * n = (2 * 2 + x) * (2 * 2 - x) + (0 + y) * (0 - y))
    by (unfold re; field; lra).
  subst y. unfold n in *. nra.
Qed.

Lemma bilinear_map_conj (z : C) :
  Cconj (bilinear_map z) = bilinear_map (Cconj z).
Proof.
  unfold bilinear_map. now rewrite Cconj_div, Cconj_add, Cconj_sub, Cconj_RtoC.
Qed.

Lemma warped_pos (Wn : Q) :
  (0 < Wn)%Q -> (Wn < 1)%Q -> 0 < 2 * 2 * tan (PI * Q2R Wn / 2).
Proof.
  intros H0 H1. apply Qlt_Rlt in H0, H1.
  rewrite RMicromega.Q2R_0 in H0. rewrite RMicromega.Q2R_1 in H1.
  pose proof PI_RGT_0.
  assert (0 < tan (PI * Q2R Wn / 2)) by (apply tan_gt_0; nra).
  lra.
Qed.

(** The digital poles of a design are the analog poles [p] through
    [bilinear_map].  When [p] is closed under conjugation and lies in the
    open left half plane, the denominator [a] is monic, has one coefficient
    more than there are poles, and does not vanish at [z = 1]. *)
Section DigitalPoles.

Variable p : list C.
Hypothesis p_conj : map Cconj p = rev p.
Hypothesis p_left : Forall (fun v => fst v < 0) p.

Let a : list R := map Re (poly (map bilinear_map p)).

Lemma digital_poles_monic : nth 0 a 0 = 1.
Proof.
  unfold a. rewrite (nth_map_in Re C0) by (rewrite poly_length; lia).
  now rewrite poly_head.
Qed.

Lemma digital_poles_length : length a = S (length p).
Proof. unfold a. now rewrite length_map, poly_length, length_map. Qed.

Lemma digital_poles_no_pole_at_one : sum a <> 0.
Proof.
  unfold a. rewrite sum_map_Re, Csum_poly. apply self_conjugate_product.
  - apply map_conj_commute.
    + intros z. now rewrite Cconj_sub, Cconj_C1.
    + apply map_conj_commute; [apply bilinear_map_conj | exact p_conj].
  - rewrite Forall_map, Forall_map. revert p_left. apply Forall_impl.
    intros v. apply bilinear_factor_nonzero.
Qed.

End DigitalPoles.

(** The transfer function of conjugate-closed left-half-plane poles and as
    many zeros is proper. *)
Lemma zpk2tf_proper (z p : list C) (k : R) :
  map Cconj p = rev p -> Forall (fun v => fst v < 0) p ->
  length z = length p -> (1 <= length p)%nat ->
  proper (zpk2tf z (map bilinear_map p) k).
Proof.
  intros Hsym Hleft Hz Hp. unfold proper, zpk2tf. cbn [fst snd].
  rewrite (digital_poles_monic p), (digital_poles_length p).
  rewrite length_map, poly_length, Hz.
  repeat split; [lra | now apply digital_poles_no_pole_at_one | lia].
Qed.

(** A Butterworth design of order at least 1 with its cut-off strictly
    between 0 and the Nyquist frequency succeeds and is proper, with
    [N + 1] coefficients on each side. *)
Lemma butter_proper (N : Z) (Wn : Q) (bt : btype) :
  (1 <= N)%Z -> (0 < Wn)%Q -> (Wn < 1)%Q ->
  exists c, butter N Wn bt = Ok c /\ proper c /\
            length (fst c) = S (Z.to_nat N) /\
            length (snd c) = S (Z.to_nat N).
Proof.
  intros HN H0 H1. unfold butter.
  assert (E0 : Qle_bool Wn 0 = false).
  { apply not_true_is_false. intros H. apply Qle_bool_iff in H.
    exact (Qlt_not_le _ _ H0 H). }
  assert (E1 : Qle_bool 1 Wn = false).
  { apply not_true_is_false. intros H. apply Qle_bool_iff in H.
    exact (Qlt_not_le _ _ H1 H). }
  rewrite E0, E1. unfold buttap.
  destruct (Z.ltb_spec N 0); [lia|]. cbn [bind orb].
  fold (buttap_poles N).
  pose proof (warped_pos H0 H1) as Hw.
  set (w := 2 * 2 * tan (PI * Q2R Wn / 2)) in *.
  pose proof (buttap_poles_conj (N := N) ltac:(lia)) as Hsym.
  pose proof (buttap_poles_left HN) as Hleft.
  pose proof (buttap_poles_length (N := N) ltac:(lia)) as Hlen.
  destruct bt.
  - unfold lp2lp_zpk, bilinear_zpk. cbn [map length app].
    eexists. split; [reflexivity|]. fold bilinear_map. split.
    + apply zpk2tf_proper.
      * apply map_conj_commute; [|exact Hsym].
        intros z. now rewrite Cconj_mul, Cconj_RtoC.
      * rewrite Forall_map. revert Hleft. apply Forall_impl.
        intros v. now apply lp2lp_left.
      * now rewrite repeat_length, Nat.sub_0_r.
      * rewrite length_map. lia.
    + unfold zpk2tf. cbn [fst snd].
      rewrite !length_map, !poly_length, repeat_length, !length_map, Hlen.
      split; lia.
  - unfold lp2hp_zpk, bilinear_zpk. cbn [map length app].
    eexists. split; [reflexivity|]. fold bilinear_map. split.
    + apply zpk2tf_proper.
      * apply map_conj_commute; [|exact Hsym].
        intros z. now rewrite Cconj_div, Cconj_RtoC.
      * rewrite Forall_map. revert Hleft. apply Forall_impl.
        intros v. now apply lp2hp_left.
      * rewrite length_app, !repeat_length, !length_map, repeat_length. lia.
      * rewrite length_map. lia.
    + unfold zpk2tf. cbn [fst snd].
      rewrite !length_map, !poly_length, length_app, !repeat_length,
        !length_map, repeat_length, Hlen.
      split; lia.
Qed.

(** ** Notch designs *)

(** A notch whose normalised centre is strictly between 0 and 1 and below
    the quality factor (a bandwidth below the Nyquist frequency) is proper. *)
Lemma iirnotch_proper (w0 q : Q) :
  (0 < w0)%Q -> (w0 < 1)%Q -> (w0 < q)%Q ->
  exists c, iirnotch w0 q = Ok c /\ proper c /\ padlen c = 9%nat.
Proof.
  intros H0 H1 Hq.
  assert (Hw : (2 * w0 / 2 == w0)%Q) by field.
  assert (Hqpos : (0 < q)%Q) by (eapply Qlt_trans; eassumption).
  assert (Hqne : ~ (q == 0)%Q).
  { intros E. rewrite E in Hqpos. discriminate. }
  assert (G1 : Qle_bool (2 * w0 / 2) 1 = true).
  { apply Qle_bool_iff. rewrite Hw. now apply Qlt_le_weak. }
  assert (G0 : Qle_bool 0 (2 * w0 / 2) = true).
  { apply Qle_bool_iff. rewrite Hw. now apply Qlt_le_weak. }
  unfold iirnotch, Qgtb, Qltb. rewrite G1, G0. cbn [negb orb].
  destruct (Qeq_bool q 0) eqn:Eq; [apply Qeq_bool_iff in Eq; contradiction|].
  eexists. split; [reflexivity|].
  rewrite (Qeq_eqR _ _ Hw).
  assert (Hbw : Q2R (2 * w0 / 2 / q) = Q2R w0 / Q2R q).
  { rewrite <- (Q2R_div w0 q Hqne). apply Qeq_eqR. now rewrite Hw. }
  rewrite Hbw.
  apply Qlt_Rlt in H0, H1, Hq, Hqpos. rewrite RMicromega.Q2R_0 in H0, Hqpos.
  rewrite RMicromega.Q2R_1 in H1.
  set (w := Q2R w0) in *. set (qr := Q2R q) in *.
  pose proof PI_RGT_0 as Hpi.
  pose proof Rlt_sqrt2_0 as Hs2.
  set (gb := 1 / sqrt 2).
  assert (Hgb : 0 < gb) by (unfold gb; apply Rdiv_lt_0_compat; lra).
  assert (Hgb2 : gb ^ 2 = 1 / 2).
  { unfold gb. simpl. field_simplify; [|lra].
    rewrite <- (sqrt_sqrt 2) at 2 by lra. simpl. field. lra. }
  assert (Hroot : 0 < sqrt (1 - gb ^ 2)) by (apply sqrt_lt_R0; lra).
  assert (Hratio : 0 < w / qr < 1).
  { split; [apply Rdiv_lt_0_compat; lra|].
    apply Rmult_lt_reg_r with qr; [lra|].
    unfold Rdiv. rewrite Rmult_assoc, Rinv_l by lra. lra. }
  assert (Htan : 0 < tan (w / qr * PI / 2)) by (apply tan_gt_0; nra).
  set (beta := sqrt (1 - gb ^ 2) / gb * tan (w / qr * PI / 2)).
  assert (Hbeta : 0 < beta).
  { unfold beta. apply Rmult_lt_0_compat; [apply Rdiv_lt_0_compat|]; assumption. }
  set (gain := 1 / (1 + beta)).
  assert (Hgain : 0 < gain) by (unfold gain; apply Rdiv_lt_0_compat; lra).
  assert (Hcos : cos (w * PI) < 1).
  { rewrite <- cos_0. apply cos_decreasing_1; nra. }
  unfold proper, padlen. cbn [fst snd nth length map Nat.max sum fold_right].
  repeat split; try lra; try lia. nra.
Qed.

Lemma default_notch_proper :
  exists c, notch_design default_notch_freq default_quality_factor = Ok c /\
            proper c /\ padlen c = 9%nat.
Proof. unfold notch_design. now apply iirnotch_proper. Qed.

Lemma butter_default_proper (f : Q) (bt : btype) :
  (0 < f)%Q -> (f < nyquist)%Q ->
  exists c, butter default_order (f / nyquist) bt = Ok c /\ proper c /\
            padlen c = 15%nat.
Proof.
  intros H0 H1.
  destruct (@butter_proper default_order (f / nyquist) bt)
    as (c & Hc & Hp & Lb & La).
  - unfold default_order. lia.
  - now apply normalized_pos.
  - now apply normalized_lt_1.
  - exists c. split; [assumption|]. split; [assumption|].
    unfold padlen. rewrite La, Lb. reflexivity.
Qed.

(** Every valid specification is designed without error, and its filter is
    proper. *)
Lemma design_regular_proper (spec : filter_spec) :
  regular_spec spec -> exists c, design spec = Ok c /\ proper c.
Proof.
  destruct spec as [f q|f n|f n]; cbn [regular_spec design];
    intros (H0 & H1 & H2).
  - unfold notch_design.
    destruct (@iirnotch_proper (f / nyquist) q) as (c & Hc & Hp & _);
      [now apply normalized_pos | now apply normalized_lt_1 | assumption|].
    eauto.
  - unfold high_pass_design.
    destruct (@butter_proper n (f / nyquist) highpass H2)
      as (c & Hc & Hp & _);
      [now apply normalized_pos | now apply normalized_lt_1|].
    eauto.
  - unfold low_pass_design.
    destruct (@butter_proper n (f / nyquist) lowpass H2)
      as (c & Hc & Hp & _);
      [now apply normalized_pos | now apply normalized_lt_1|].
    eauto.
Qed.

(** ** Applying designed filters *)

(** The filter function of a valid specification keeps the length of every
    buffer that is longer than the padding of its design. *)
Lemma stage_keeps_length (spec : filter_spec) (x : buffer) :
  regular_spec spec ->
  exists c, design spec = Ok c /\
            ((padlen c < length x)%nat ->
             exists y, stage spec x = Ok y /\ length y = length x).
Proof.
  intros Hreg. destruct (design_regular_proper spec Hreg) as ([b a] & Hd & Hp).
  exists (b, a). split; [exact Hd|]. intros Hlen.
  rewrite stage_design_apply, Hd. cbn [bind]. unfold apply_filter.
  destruct (filtfilt_spec x Hp Hlen) as (y & Hy & L & _). eauto.
Qed.

(** C7.  Zero-phase application of a proper filter to a buffer longer than
    the padding returns a buffer of exactly the input's length. *)
Theorem filtfilt_preserves_length (c : coeffs) (x : buffer) :
  proper c -> (padlen c < length x)%nat ->
  exists y, apply_filter c x = Ok y /\ length y = length x.
Proof.
  destruct c as [b a]. intros Hp Hl. unfold apply_filter. cbn [fst snd].
  destruct (filtfilt_spec x Hp Hl) as (y & Hy & L & _). eauto.
Qed.

Lemma filtfilt_preserves_length_witness :
  exists y,
    apply_filter ([1 / 2; 1 / 2], [1; 0]) [1; 2; 3; 4; 5; 6; 7] = Ok y /\
    length y = 7%nat.
Proof.
  apply (@filtfilt_preserves_length ([1 / 2; 1 / 2], [1; 0])
           [1; 2; 3; 4; 5; 6; 7]).
  - unfold proper. cbn [fst snd nth length Nat.max sum fold_right].
    repeat split; [lra | lra | lia].
  - unfold padlen. cbn [fst snd length Nat.max Nat.mul Nat.add]. lia.
Defined.

(** C8.  A high-pass design of order at least 1 with its cut-off strictly
    between 0 and the Nyquist frequency, applied to an all-zero buffer of
    more than [3 * (order + 1)] samples, returns the all-zero buffer of the
    same length. *)
Theorem high_pass_zero (cutoff : Q) (order : Z) (n : nat) :
  (1 <= order)%Z -> (0 < cutoff)%Q -> (cutoff < nyquist)%Q ->
  (3 * (Z.to_nat order + 1) < n)%nat ->
  high_pass_filter (repeat 0 n) cutoff order = Ok (repeat 0 n).
Proof.
  intros Ho H0 H1 Hn. unfold high_pass_filter, high_pass_design.
  destruct (@butter_proper order (cutoff / nyquist) highpass Ho)
    as ([b a] & Hd & Hp & Lb & La).
  - now apply normalized_pos.
  - now apply normalized_lt_1.
  - rewrite Hd. cbn [bind]. cbn [fst snd] in Lb, La.
    destruct (@filtfilt_spec b a (repeat 0 n) Hp) as (y & Hy & Ly & Hz).
    + unfold padlen. cbn [fst snd]. rewrite La, Lb, repeat_length. lia.
    + rewrite Hy. f_equal. rewrite repeat_length in Ly.
      rewrite (all_zero_repeat (Hz (repeat_all_zero n))). now rewrite Ly.
Qed.

Lemma high_pass_zero_witness :
  high_pass_filter (repeat 0 16) default_highpass_cutoff default_order
  = Ok (repeat 0 16).
Proof.
  apply high_pass_zero.
  - unfold default_order. lia.
  - reflexivity.
  - reflexivity.
  - simpl. lia.
Defined.

(** ** The whole run *)

(** The cascade runs on every buffer of more than 15 samples and keeps its
    length. *)
Lemma cascade_runs (noisy : buffer) :
  (15 < length noisy)%nat ->
  exists filtered, cascade noisy = Ok filtered /\
                   length filtered = length noisy.
Proof.
  intros Hlen. unfold cascade, notch_filter, high_pass_filter, low_pass_filter,
    high_pass_design, low_pass_design.
  destruct default_notch_proper as ([b1 a1] & D1 & P1 & L1).
  destruct (@butter_default_proper default_highpass_cutoff highpass eq_refl eq_refl)
    as ([b2 a2] & D2 & P2 & L2).
  destruct (@butter_default_proper default_lowpass_cutoff lowpass eq_refl eq_refl)
    as ([b3 a3] & D3 & P3 & L3).
  rewrite D1. cbn [bind].
  destruct (@filtfilt_spec b1 a1 noisy P1) as (s1 & F1 & E1 & _); [lia|].
  rewrite F1. cbn [bind]. rewrite D2. cbn [bind].
  destruct (@filtfilt_spec b2 a2 s1 P2) as (s2 & F2 & E2 & _); [lia|].
  rewrite F2. cbn [bind]. rewrite D3. cbn [bind].
  destruct (@filtfilt_spec b3 a3 s2 P3) as (s3 & F3 & E3 & _); [lia|].
  exists s3. split; [assumption | congruence].
Qed.


(** The demonstration runs to the end whatever the state of the random
    generator, and its filtered buffer has the 10000 samples of the input. *)
Lemma demonstrate_filtering_runs (g : rng_state) :
  exists d g',
    demonstrate_filtering g = (Ok d, g') /\
    Z.of_nat (length (demo_filtered d)) = 10000%Z.
Proof.
  unfold demonstrate_filtering.
  destruct (@generate_ppg_signal_spec default_duration g eq_refl)
    as (t & noisy & clean & Hrun & Lt & Ln & Lc & _).
  assert (HN : Qfloor (Dspblog.fs * default_duration) = 10000%Z) by reflexivity.
  rewrite HN in *.
  destruct (generate_ppg_signal default_duration g) as [r g'].
  cbn [fst] in Hrun. subst r. cbn [bind].
  destruct (@cascade_runs noisy) as (filtered & Hc & Lf); [lia|].
  rewrite Hc. cbn [bind].
  assert (Nn : noisy <> []) by (intros ->; simpl in Ln; lia).
  assert (Nf : filtered <> []) by (intros ->; simpl in Lf; lia).
  rewrite (compute_spectrum_run Nn), (compute_spectrum_run Nf). cbn [bind].
  unfold evaluate.
  rewrite (@subtract_same_length noisy clean) by congruence.
  rewrite (@subtract_same_length filtered clean) by congruence.
  cbn [bind]. do 2 eexists. split; [reflexivity|].
  cbn [demo_filtered]. lia.
Qed.


(** ** Constant buffers and the gain at frequency zero *)

(* ---- theorems ---- *)

Lemma constant_repeat (c : R) (x : list R) :
  constant c x -> x = repeat c (length x).
Proof. induction 1; simpl; [reflexivity | congruence]. Qed.

Lemma repeat_constant (c : R) (n : nat) : constant c (repeat c n).
Proof. induction n; simpl; constructor; auto. Qed.

Lemma constant_firstn (c : R) (n : nat) (x : list R) :
  constant c x -> constant c (firstn n x).
Proof.
  intros H. revert n. induction H; intros [|n]; simpl; constructor; auto.
  apply IHForall.
Qed.

Lemma constant_skipn (c : R) (n : nat) (x : list R) :
  constant c x -> constant c (skipn n x).
Proof.
  intros H. revert n. induction H; intros [|n]; simpl; auto; try constructor; auto.
Qed.

Lemma constant_reflect (c : R) (x : list R) :
  constant c x -> constant c (map (fun v => 2 * c - v) x).
Proof. induction 1; simpl; constructor; [lra | assumption]. Qed.

Lemma odd_ext_constant (c : R) (n e : nat) :
  (e < n)%nat -> odd_ext (repeat c n) e = repeat c (e + n + e).
Proof.
  intros He.
  assert (H : constant c (odd_ext (repeat c n) e)).
  { unfold odd_ext. rewrite repeat_length.
    rewrite !(nth_repeat_lt c (m := n)) by lia.
    unfold constant. rewrite !Forall_app. repeat split.
    - apply constant_reflect, Forall_rev, constant_firstn, constant_skipn,
        repeat_constant.
    - apply repeat_constant.
    - apply constant_reflect, Forall_rev, constant_firstn, constant_skipn,
        repeat_constant. }
  rewrite (constant_repeat H). f_equal.
  rewrite odd_ext_length; rewrite repeat_length; lia.
Qed.

Lemma df2t_state_cons (z0 bi ai x y : R) (z b a : list R) :
  df2t_state (z0 :: z) (bi :: b) (ai :: a) x y
  = (nth 0 z 0 + bi * x - ai * y) :: df2t_state z b a x y.
Proof. reflexivity. Qed.

(** The delay line that [lfilter_zi] computes is a fixed point of the
    recursion under a constant input. *)
Lemma steady_state_fixed (zi0 b0 c y : R) (Bl : list R) :
  y = c * (zi0 + b0) ->
  forall (A Bt : list R) (Blast asum csum : R),
    map (fun p => fst p - snd p * b0) (combine Bt A) = Bl ++ [Blast] ->
    length A = length Bt ->
    (asum + sum A) * zi0 = csum + sum Bl + Blast ->
    let Z := (asum * zi0 - csum) :: steady_state asum csum zi0 A Bl in
    df2t_state (map (fun v => v * c) Z) Bt A c y = map (fun v => v * c) Z.
Proof.
  intros Hy. induction Bl as [|B0 Bl IH]; intros A Bt Blast asum csum HB Hlen Hsum.
  - destruct A as [|a1 [|a2 A]], Bt as [|b1 [|b2 Bt]]; try discriminate.
    cbn in HB. injection HB as HB. cbn in Hsum |- *. f_equal. subst y Blast.
    assert (asum * zi0 - csum = b1 - a1 * (zi0 + b0)) by lra. nra.
  - destruct A as [|a1 A], Bt as [|b1 Bt]; try discriminate.
    cbn [combine map fst snd app] in HB. injection HB as HB0 HB.
    simpl in Hlen. injection Hlen as Hlen.
    assert (Hsum' : (asum + a1 + sum A) * zi0 = csum + B0 + sum Bl + Blast).
    { unfold sum in *. cbn [fold_right] in Hsum.
      rewrite Rplus_assoc, Hsum. ring. }
    specialize (IH A Bt Blast (asum + a1) (csum + B0) HB Hlen Hsum').
    cbv zeta in IH |- *.
    cbn [steady_state map]. rewrite df2t_state_cons. cbn [nth].
    cbn [map] in IH. rewrite IH. f_equal.
    subst y B0. ring.
Qed.

Lemma sum_affine (b0 : R) (Bt A : list R) :
  length A = length Bt ->
  sum (map (fun p => fst p - snd p * b0) (combine Bt A))
  = sum Bt - b0 * sum A.
Proof.
  revert A. induction Bt as [|b1 Bt IH]; intros [|a1 A] Hlen; try discriminate.
  - simpl. ring.
  - simpl in Hlen. injection Hlen as Hlen. cbn [combine map fst snd].
    unfold sum in *. cbn [fold_right]. rewrite (IH A Hlen). ring.
Qed.

Lemma firstn_all_but_last {A} (l : list A) (x : A) :
  firstn (length (l ++ [x]) - 1) (l ++ [x]) = l.
Proof.
  rewrite length_app. simpl. replace (length l + 1 - 1)%nat with (length l) by lia.
  rewrite firstn_app, Nat.sub_diag, firstn_all. simpl. apply app_nil_r.
Qed.

(** On a proper filter, one step of the recursion from the steady state
    scaled by [c], with input [c], returns the DC gain times [c] and leaves
    the delay line where it was. *)
Lemma steady_state_step (b a zi : list R) (c : R) :
  proper (b, a) -> lfilter_zi b a = Ok zi ->
  df2t_step (fst (normalize b a)) (snd (normalize b a))
            (map (fun v => v * c) zi) c
  = (dc_gain (b, a) * c, map (fun v => v * c) zi).
Proof.
  intros (Ha & Hs & Hn). cbn [fst snd] in *.
  unfold lfilter_zi. rewrite (strip_zeros_head _ Ha).
  destruct a as [|a0 a]; [simpl in Ha; lra|]. simpl in Ha.
  destruct (normalize_lengths b (a0 :: a)) as [Lb La].
  assert (Ha' : snd (normalize b (a0 :: a))
                = pad_to (Nat.max (length (a0 :: a)) (length b))
                    (map (fun v => v / a0) (a0 :: a))) by reflexivity.
  assert (Hb' : fst (normalize b (a0 :: a))
                = pad_to (Nat.max (length (a0 :: a)) (length b))
                    (map (fun v => v / a0) b)) by reflexivity.
  destruct (normalize b (a0 :: a)) as [b' a'] eqn:En. cbn [fst snd] in *.
  assert (H0 : nth 0 a' 0 = 1).
  { rewrite Ha'. unfold pad_to. simpl. now field. }
  assert (Hsa : sum a' = sum (a0 :: a) / a0).
  { rewrite Ha'. unfold pad_to. now rewrite sum_app, sum_repeat_0, sum_scale, Rplus_0_r. }
  assert (Hsb : sum b' = sum b / a0).
  { rewrite Hb'. unfold pad_to. now rewrite sum_app, sum_repeat_0, sum_scale, Rplus_0_r. }
  assert (Hsa0 : sum a' <> 0).
  { rewrite Hsa. intros E. apply Hs.
    apply (Rmult_eq_compat_r a0) in E. field_simplify in E; assumption. }
  assert (Hlab : length b' = length a') by congruence.
  destruct (Nat.ltb_spec (length a') 2) as [|H2]; [lia|].
  destruct (Req_dec_T (nth 0 a' 0) 0); [lra|].
  destruct (Req_dec_T (sum a') 0); [contradiction|].
  intros Hzi. injection Hzi as <-.
  clear Ha' Hb' La Lb En.
  destruct a' as [|a0' A]; [cbn [length] in H2; lia|].
  destruct b' as [|b0 Bt]; [discriminate|].
  simpl in H0. subst a0'. cbn [tl nth] in *.
  assert (Hlen : length A = length Bt) by (cbn [length] in Hlab; lia).
  set (B := map (fun p => fst p - snd p * b0) (combine Bt A)).
  assert (HBne : B <> []).
  { unfold B. intros E. apply (f_equal (@length R)) in E.
    rewrite length_map, length_combine in E. cbn [length] in E, H2. lia. }
  destruct (exists_last HBne) as (Bl & Blast & HB).
  rewrite HB, firstn_all_but_last.
  set (zi0 := sum (Bl ++ [Blast]) / sum (1 :: A)).
  assert (Hsum1 : sum (1 :: A) = 1 + sum A) by reflexivity.
  assert (HsB : sum (Bl ++ [Blast]) = sum Bt - b0 * sum A).
  { rewrite <- HB. unfold B. now apply sum_affine. }
  assert (Hfix : (1 + sum A) * zi0 = 0 + sum Bl + Blast).
  { unfold zi0. rewrite <- Hsum1. rewrite sum_app in *. simpl in *.
    field_simplify; lra. }
  assert (Hgain : zi0 + b0 = dc_gain (b, a0 :: a)).
  { unfold dc_gain. cbn [fst snd].
    assert (Hq : sum b / sum (a0 :: a) = sum (b0 :: Bt) / sum (1 :: A)).
    { rewrite Hsb, Hsa. field. split; [assumption|].
      intros E. apply Hsa0. rewrite Hsa, E. field. assumption. }
    rewrite Hq. unfold zi0. rewrite HsB.
    change (sum (b0 :: Bt)) with (b0 + sum Bt). rewrite Hsum1 in *.
    field. lra. }
  pose proof (@steady_state_fixed zi0 b0 c (c * (zi0 + b0)) Bl eq_refl
                A Bt Blast 1 0 HB Hlen Hfix) as Hst.
  cbv zeta in Hst.
  replace (1 * zi0 - 0) with zi0 in Hst by ring.
  unfold df2t_step. cbn [map nth tl].
  replace (zi0 * c + b0 * c) with (c * (zi0 + b0)) by ring.
  cbn [map] in Hst. rewrite Hst. f_equal. rewrite <- Hgain. ring.
Qed.

Lemma df2t_run_steady (b a Z : list R) (c y : R) (n : nat) :
  df2t_step b a Z c = (y, Z) ->
  df2t_run b a Z (repeat c n) = (repeat y n, Z).
Proof.
  intros Hstep. induction n as [|n IH]; [reflexivity|].
  cbn [repeat df2t_run]. rewrite Hstep, IH. reflexivity.
Qed.

(** Zero-phase filtering of a constant buffer: the constant comes out
    multiplied by the square of the DC gain. *)
Lemma filtfilt_constant (b a : list R) (c : R) (n : nat) :
  proper (b, a) -> (padlen (b, a) < n)%nat ->
  filtfilt b a (repeat c n)
  = Ok (repeat (dc_gain (b, a) * (dc_gain (b, a) * c)) n).
Proof.
  intros Hp Hlen. unfold padlen in Hlen. cbn [fst snd] in Hlen.
  destruct (lfilter_zi_ok Hp) as (zi & Hzi & Lzi).
  pose proof Hp as (Ha & _ & Hn). cbn [fst snd] in Ha, Hn.
  unfold filtfilt. rewrite repeat_length.
  set (edge := (Nat.max (length a) (length b) * 3)%nat) in *.
  destruct (Nat.leb_spec n edge); [lia|].
  destruct (Nat.ltb_spec 0 edge); [|lia].
  rewrite Hzi. cbn [bind].
  rewrite odd_ext_constant by lia.
  set (L := (edge + n + edge)%nat).
  assert (HL : (0 < L)%nat) by (unfold L; lia).
  rewrite (nth_repeat_lt c 0 HL).
  set (g := dc_gain (b, a)).
  assert (Hrun : forall v, lfilter b a (repeat v L) (map (fun u => u * v) zi)
                           = Ok (repeat (g * v) L, map (fun u => u * v) zi)).
  { intros v.
    destruct (@lfilter_ok b a (repeat v L) (map (fun u => u * v) zi) Ha)
      as (y1 & z1 & H1 & _ & R1); [now rewrite length_map|].
    rewrite H1, R1. f_equal.
    apply df2t_run_steady. now apply steady_state_step. }
  rewrite Hrun. cbn [bind].
  rewrite repeat_length, (nth_repeat_lt (g * c) 0 (m := L)) by lia.
  rewrite rev_repeat, Hrun. cbn [bind]. rewrite rev_repeat.
  f_equal. unfold slice_both.
  rewrite (constant_repeat (constant_firstn _ (constant_skipn edge
             (repeat_constant (g * (g * c)) L)))).
  f_equal. rewrite length_firstn, length_skipn, repeat_length. unfold L. lia.
Qed.


(** ** Filter functions on constant and on short buffers *)

Lemma sum_map_scale_Re (k : R) (cs : list C) :
  sum (map (fun c => k * Re c) cs) = k * Re (Csum cs).
Proof.
  induction cs as [|c cs IH]; [simpl; ring|].
  cbn [map Csum fold_right]. fold (Csum cs).
  change (sum (?x :: ?l)) with (x + sum l). rewrite IH.
  unfold Re, Cadd. cbn [fst]. ring.
Qed.

Lemma bilinear_map_origin : Csub C1 (bilinear_map C0) = C0.
Proof. unfold bilinear_map. c_unfold. f_equal; field. Qed.

Lemma Cmul_0_l (z : C) : Cmul C0 z = C0.
Proof. c_ring. Qed.

Lemma highpass_zeros_prod (m : nat) (rest : list C) :
  Cprod (map (Csub C1) (map bilinear_map (repeat C0 (S m)) ++ rest)) = C0.
Proof.
  cbn [repeat map app Cprod fold_right].
  now rewrite bilinear_map_origin, Cmul_0_l.
Qed.

(** What [butter] returns on valid arguments. *)
Lemma butter_valid (N : Z) (Wn : Q) (bt : btype) :
  (0 <= N)%Z -> (0 < Wn)%Q -> (Wn < 1)%Q ->
  butter N Wn bt
  = Ok (let w := 2 * 2 * tan (PI * Q2R Wn / 2) in
        let '(z, p, k) :=
          match bt with
          | lowpass => lp2lp_zpk [] (buttap_poles N) 1 w
          | highpass => lp2hp_zpk [] (buttap_poles N) 1 w
          end in
        let '(z, p, k) := bilinear_zpk z p k 2 in
        zpk2tf z p k).
Proof.
  intros HN H0 H1. unfold butter.
  assert (E0 : Qle_bool Wn 0 = false).
  { apply not_true_is_false. intros H. apply Qle_bool_iff in H.
    exact (Qlt_not_le _ _ H0 H). }
  assert (E1 : Qle_bool 1 Wn = false).
  { apply not_true_is_false. intros H. apply Qle_bool_iff in H.
    exact (Qlt_not_le _ _ H1 H). }
  rewrite E0, E1. unfold buttap.
  destruct (Z.ltb_spec N 0); [lia|]. cbn [bind orb]. destruct bt; reflexivity.
Qed.

(** The numerator of a high-pass Butterworth design vanishes at [z = 1]:
    its coefficients add up to zero, so the DC gain is zero. *)
Lemma butter_highpass_dc (N : Z) (Wn : Q) :
  (1 <= N)%Z -> (0 < Wn)%Q -> (Wn < 1)%Q ->
  exists c, butter N Wn highpass = Ok c /\ proper c /\
            padlen c = (S (Z.to_nat N) * 3)%nat /\ dc_gain c = 0.
Proof.
  intros HN H0 H1.
  destruct (@butter_proper N Wn highpass HN H0 H1) as (c & Hc & Hp & Lb & La).
  exists c. split; [exact Hc|]. split; [exact Hp|]. split.
  { unfold padlen. rewrite La, Lb. f_equal. lia. }
  rewrite butter_valid in Hc by (assumption || lia).
  injection Hc as <-.
  assert (Hlen : length (buttap_poles N) = S (Z.to_nat N - 1)).
  { rewrite buttap_poles_length by lia. lia. }
  unfold dc_gain, lp2hp_zpk, bilinear_zpk, zpk2tf.
  cbn [fst snd map length app]. fold bilinear_map.
  rewrite sum_map_scale_Re, Csum_poly, Nat.sub_0_r, Hlen.
  rewrite highpass_zeros_prod. unfold Re, C0. cbn [fst]. unfold Rdiv. ring.
Qed.

(** A notch passes the frequency zero unchanged. *)
Lemma iirnotch_dc (w0 q : Q) (c : coeffs) :
  iirnotch w0 q = Ok c -> sum (fst c) = sum (snd c).
Proof.
  unfold iirnotch. destruct (_ || _); [discriminate|].
  destruct (Qeq_bool q 0); [discriminate|].
  intros H. injection H as <-. cbn [fst snd map sum fold_right]. ring.
Qed.

Lemma filtfilt_short (b a : list R) (x : buffer) :
  (length x <= padlen (b, a))%nat -> filtfilt b a x = Raise ValueError.
Proof.
  unfold padlen, filtfilt. cbn [fst snd]. intros H.
  destruct (Nat.leb_spec (length x) (Nat.max (length a) (length b) * 3));
    [reflexivity | lia].
Qed.


Lemma design_regular_padlen (spec : filter_spec) :
  regular_spec spec ->
  exists c, design spec = Ok c /\ proper c /\ padlen c = spec_padlen spec.
Proof.
  destruct spec as [f q|f n|f n]; cbn [regular_spec design spec_padlen];
    intros (H0 & H1 & H2).
  - unfold notch_design.
    apply iirnotch_proper;
      [now apply normalized_pos | now apply normalized_lt_1 | assumption].
  - unfold high_pass_design.
    destruct (@butter_proper n (f / nyquist) highpass H2)
      as (c & Hc & Hp & Lb & La);
      [now apply normalized_pos | now apply normalized_lt_1|].
    exists c. split; [assumption|]. split; [assumption|].
    unfold padlen. rewrite La, Lb. lia.
  - unfold low_pass_design.
    destruct (@butter_proper n (f / nyquist) lowpass H2)
      as (c & Hc & Hp & Lb & La);
      [now apply normalized_pos | now apply normalized_lt_1|].
    exists c. split; [assumption|]. split; [assumption|].
    unfold padlen. rewrite La, Lb. lia.
Qed.

(** What a filter function of a valid specification does with a buffer,
    by its length. *)
Lemma stage_by_length (spec : filter_spec) (x : buffer) :
  regular_spec spec ->
  ((spec_padlen spec < length x)%nat ->
   exists y, stage spec x = Ok y /\ length y = length x) /\
  ((length x <= spec_padlen spec)%nat -> stage spec x = Raise ValueError).
Proof.
  intros Hreg.
  destruct (design_regular_padlen spec Hreg) as ([b a] & Hd & Hp & Hl).
  rewrite stage_design_apply, Hd. cbn [bind]. unfold apply_filter. cbn [fst snd].
  rewrite <- Hl. split; intros Hlen.
  - destruct (filtfilt_spec x Hp Hlen) as (y & Hy & L & _). eauto.
  - now apply filtfilt_short.
Qed.

(** X8.  A filter function of a valid specification returns a buffer of the
    length of its input when the input has more samples than the padding (9
    for a notch, [3 * (order + 1)] for a high-pass or low-pass), and raises
    [ValueError] on every shorter input. *)
Theorem stage_length_threshold (spec : filter_spec) (x : buffer) :
  regular_spec spec ->
  ((spec_padlen spec < length x)%nat ->
   exists y, stage spec x = Ok y /\ length y = length x) /\
  ((length x <= spec_padlen spec)%nat -> stage spec x = Raise ValueError).
Proof. apply stage_by_length. Qed.

Lemma stage_length_threshold_witness :
  stage (HighPass 0.5 4) [1; 2; 3] = Raise ValueError.
Proof.
  apply (@stage_length_threshold (HighPass 0.5 4) [1; 2; 3]).
  - repeat split. lia.
  - simpl. lia.
Defined.

(** X9.  Zero-phase filtering of a constant buffer that is longer than the
    padding returns the constant buffer scaled by the square of the gain of
    the transfer function at frequency zero: the padding and the initial state
    of the delay line leave no transient at the edges. *)
Theorem apply_filter_constant (c : coeffs) (v : R) (n : nat) :
  proper c -> (padlen c < n)%nat ->
  apply_filter c (repeat v n) = Ok (repeat (dc_gain c ^ 2 * v) n).
Proof.
  destruct c as [b a]. intros Hp Hn. unfold apply_filter. cbn [fst snd].
  rewrite filtfilt_constant by assumption. do 2 f_equal. ring.
Qed.

Lemma apply_filter_constant_witness :
  apply_filter ([1 / 2; 1 / 2], [1; 0]) (repeat 3 7)
  = Ok (repeat (dc_gain ([1 / 2; 1 / 2], [1; 0]) ^ 2 * 3) 7).
Proof.
  apply apply_filter_constant.
  - unfold proper. cbn [fst snd nth length Nat.max sum fold_right].
    repeat split; [lra | lra | lia].
  - unfold padlen. cbn [fst snd length Nat.max Nat.mul Nat.add]. lia.
Defined.

(** A high-pass filter function on a constant buffer. *)
Lemma high_pass_constant (cutoff : Q) (order : Z) (n : nat) (c : R) :
  (1 <= order)%Z -> (0 < cutoff)%Q -> (cutoff < nyquist)%Q ->
  (3 * (Z.to_nat order + 1) < n)%nat ->
  high_pass_filter (repeat c n) cutoff order = Ok (repeat 0 n).
Proof.
  intros Ho H0 H1 Hn. unfold high_pass_filter, high_pass_design.
  destruct (@butter_highpass_dc order (cutoff / nyquist) Ho)
    as ([b a] & Hd & Hp & Hl & Hg);
    [now apply normalized_pos | now apply normalized_lt_1|].
  rewrite Hd. cbn [bind].
  rewrite filtfilt_constant by (assumption || lia).
  rewrite Hg. do 2 f_equal. ring.
Qed.

(** A notch filter function on a constant buffer. *)
Lemma notch_constant (f q : Q) (n : nat) (c : R) :
  (0 < f)%Q -> (f < nyquist)%Q -> (f / nyquist < q)%Q -> (9 < n)%nat ->
  notch_filter (repeat c n) f q = Ok (repeat c n).
Proof.
  intros H0 H1 Hq Hn. unfold notch_filter, notch_design.
  destruct (@iirnotch_proper (f / nyquist) q) as ([b a] & Hd & Hp & Hl);
    [now apply normalized_pos | now apply normalized_lt_1 | assumption|].
  rewrite Hd. cbn [bind].
  rewrite filtfilt_constant by (assumption || lia).
  assert (Hg : dc_gain (b, a) = 1).
  { unfold dc_gain. rewrite (iirnotch_dc _ _ Hd).
    destruct Hp as (_ & Hs & _). now field. }
  rewrite Hg. do 2 f_equal. ring.
Qed.

(** X11.  The high-pass filter maps a constant buffer of more than [3 * (order
    + 1)] samples to the zero buffer of that length, for every order from 1
    and every cut-off strictly between 0 and the Nyquist frequency: its gain
    at frequency zero is 0. *)
Theorem high_pass_removes_offset (cutoff : Q) (order : Z) (n : nat) (c : R) :
  (1 <= order)%Z -> (0 < cutoff)%Q -> (cutoff < nyquist)%Q ->
  (3 * (Z.to_nat order + 1) < n)%nat ->
  high_pass_filter (repeat c n) cutoff order = Ok (repeat 0 n).
Proof. apply high_pass_constant. Qed.

Lemma high_pass_removes_offset_witness :
  high_pass_filter (repeat 5 16) 0.5 4 = Ok (repeat 0 16).
Proof.
  apply high_pass_removes_offset.
  - lia.
  - reflexivity.
  - reflexivity.
  - simpl. lia.
Defined.

(** X10.  The notch filter returns a constant buffer of more than 9 samples
    unchanged, for every centre frequency strictly between 0 and the Nyquist
    frequency and every quality factor above [f / nyquist]. *)
Theorem notch_keeps_constant (f q : Q) (n : nat) (c : R) :
  (0 < f)%Q -> (f < nyquist)%Q -> (f / nyquist < q)%Q -> (9 < n)%nat ->
  notch_filter (repeat c n) f q = Ok (repeat c n).
Proof. apply notch_constant. Qed.

Lemma notch_keeps_constant_witness :
  notch_filter (repeat 5 10) 50 30 = Ok (repeat 5 10).
Proof.
  apply notch_keeps_constant.
  - reflexivity.
  - reflexivity.
  - reflexivity.
  - simpl. lia.
Defined.

(** The cascade of a constant buffer. *)
Lemma cascade_constant (c : R) (n : nat) :
  (15 < n)%nat -> cascade (repeat c n) = Ok (repeat 0 n).
Proof.
  intros Hn. unfold cascade.
  rewrite notch_constant by (reflexivity || lia). cbn [bind].
  rewrite high_pass_constant
    by (reflexivity || (unfold default_order; simpl; lia)).
  cbn [bind]. unfold low_pass_filter, low_pass_design.
  destruct (@butter_default_proper default_lowpass_cutoff lowpass eq_refl eq_refl)
    as ([b a] & Hd & Hp & Hl).
  rewrite Hd. cbn [bind].
  destruct (@filtfilt_spec b a (repeat 0 n) Hp) as (y & Hy & Ly & Hz).
  { rewrite repeat_length. lia. }
  rewrite Hy. f_equal. rewrite repeat_length in Ly.
  rewrite (all_zero_repeat (Hz (repeat_all_zero n))). now rewrite Ly.
Qed.

(** X15.  The cascade maps every constant buffer of more than 15 samples to
    the zero buffer of that length. *)
Theorem cascade_removes_offset (c : R) (n : nat) :
  (15 < n)%nat -> cascade (repeat c n) = Ok (repeat 0 n).
Proof. apply cascade_constant. Qed.

Lemma cascade_removes_offset_witness :
  cascade (repeat 1 16) = Ok (repeat 0 16).
Proof. apply cascade_removes_offset. simpl. lia. Defined.

(** X14.  The cascade with the script's parameters returns a buffer of the
    length of its input when the input has more than 15 samples, and raises
    [ValueError] on every input of 15 samples or fewer. *)
Theorem cascade_length_threshold (noisy : buffer) :
  ((15 < length noisy)%nat ->
   exists filtered, cascade noisy = Ok filtered /\
                    length filtered = length noisy) /\
  ((length noisy <= 15)%nat -> cascade noisy = Raise ValueError).
Proof.
  split; [apply cascade_runs|]. intros Hlen. unfold cascade.
  change (notch_filter noisy default_notch_freq default_quality_factor)
    with (stage (Notch default_notch_freq default_quality_factor) noisy).
  assert (R1 : regular_spec (Notch default_notch_freq default_quality_factor))
    by (repeat split).
  assert (R2 : regular_spec (HighPass default_highpass_cutoff default_order)).
  { repeat split. unfold default_order. lia. }
  destruct (Nat.le_gt_cases (length noisy) 9) as [Hs|Hl].
  - now rewrite (proj2 (@stage_by_length _ noisy R1) Hs).
  - destruct (proj1 (@stage_by_length _ noisy R1) Hl) as (s1 & H1 & L1).
    rewrite H1. cbn [bind].
    change (high_pass_filter s1 default_highpass_cutoff default_order)
      with (stage (HighPass default_highpass_cutoff default_order) s1).
    rewrite (proj2 (@stage_by_length _ s1 R2)); [reflexivity|].
    rewrite L1. exact Hlen.
Qed.

Lemma cascade_length_threshold_witness :
  cascade [1; 2; 3] = Raise ValueError.
Proof.
  apply (proj2 (cascade_length_threshold [1; 2; 3])). simpl. lia.
Defined.


(** ** The gain of a low-pass design at frequency zero *)

Lemma Cprod_scale (r : R) (l : list C) :
  Cprod (map (Cmul (RtoC r)) l) = Cmul (RtoC (r ^ length l)) (Cprod l).
Proof.
  induction l as [|z l IH]; cbn [map length Cprod fold_right pow].
  - c_ring.
  - fold (Cprod (map (Cmul (RtoC r)) l)) (Cprod l). rewrite IH.
    set (P := Cprod l). set (s := r ^ length l). c_ring.
Qed.

Lemma Cprod_repeat_real (r : R) (n : nat) :
  Cprod (repeat (RtoC r) n) = RtoC (r ^ n).
Proof.
  induction n as [|n IH]; cbn [repeat Cprod fold_right pow]; [reflexivity|].
  fold (Cprod (repeat (RtoC r) n)). rewrite IH. c_unfold. f_equal; ring.
Qed.

Lemma Cprod_exp (l : list R) : Cprod (map Cexp_i l) = Cexp_i (sum l).
Proof.
  induction l as [|a l IH]; cbn [map Cprod fold_right].
  - unfold Cexp_i, C1. simpl. now rewrite cos_0, sin_0.
  - fold (Cprod (map Cexp_i l)). rewrite IH.
    change (sum (a :: l)) with (a + sum l).
    unfold Cexp_i, Cmul. cbn [fst snd]. rewrite cos_plus, sin_plus.
    f_equal; ring.
Qed.

Lemma sum_rev (l : list R) : sum (rev l) = sum l.
Proof.
  induction l as [|a l IH]; [reflexivity|].
  cbn [rev]. rewrite sum_app, IH. simpl. ring.
Qed.

Lemma sum_opp (l : list R) : sum (map Ropp l) = - sum l.
Proof.
  induction l as [|a l IH]; [simpl; ring|].
  cbn [map]. change (sum (?x :: ?y)) with (x + sum y). rewrite IH. ring.
Qed.


Lemma buttap_angles_length (N : Z) :
  (0 <= N)%Z -> length (buttap_angles N) = Z.to_nat N.
Proof. intros HN. unfold buttap_angles. now rewrite length_map, arange2_length. Qed.

Lemma buttap_angles_sum (N : Z) : (0 <= N)%Z -> sum (buttap_angles N) = 0.
Proof.
  intros HN. pose proof (buttap_angles_length HN) as Hlen.
  assert (Hsym : map Ropp (buttap_angles N) = rev (buttap_angles N)).
  { apply nth_ext with (d := 0) (d' := 0).
    - now rewrite length_map, length_rev.
    - intros i Hi. rewrite length_map, Hlen in Hi.
      rewrite (nth_map_in Ropp 0) by lia.
      rewrite rev_nth by lia. rewrite Hlen.
      unfold buttap_angles.
      rewrite !(nth_map_in (fun m => PI * IZR m / (2 * IZR N)) 0%Z)
        by (rewrite arange2_length; lia).
      rewrite !nth_arange2 by lia.
      replace (- N + 1 + 2 * Z.of_nat (Z.to_nat N - S i))%Z
        with (- (- N + 1 + 2 * Z.of_nat i))%Z by lia.
      rewrite opp_IZR. unfold Rdiv. ring. }
  assert (H : - sum (buttap_angles N) = sum (buttap_angles N)).
  { now rewrite <- sum_opp, Hsym, sum_rev. }
  lra.
Qed.

(** The prototype poles multiply to [(-1)^N]. *)
Lemma buttap_poles_prod (N : Z) :
  (0 <= N)%Z -> Cprod (buttap_poles N) = RtoC ((- 1) ^ Z.to_nat N).
Proof.
  intros HN.
  assert (E : buttap_poles N
              = map (Cmul (RtoC (- 1))) (map Cexp_i (buttap_angles N))).
  { unfold buttap_poles, buttap_angles. rewrite !map_map.
    apply map_ext. intros m. c_unfold. unfold Cexp_i. cbn [fst snd].
    f_equal; ring. }
  rewrite E, Cprod_scale, Cprod_exp, buttap_angles_sum by assumption.
  rewrite length_map, buttap_angles_length by assumption.
  unfold Cexp_i. rewrite cos_0, sin_0. c_unfold. f_equal; ring.
Qed.

Lemma Cdiv_mul (a b c d : C) :
  Cdiv (Cmul a c) (Cmul b d) = Cmul (Cdiv a b) (Cdiv c d).
Proof.
  unfold Cdiv at 1. rewrite Cnorm2_mul.
  destruct a, b, c, d. unfold Cdiv, Cmul. cbn [fst snd].
  set (n1 := Cnorm2 _). set (n2 := Cnorm2 _).
  unfold Rdiv. rewrite Rinv_mult. f_equal; ring.
Qed.

Lemma Cprod_div (u v : C -> C) (l : list C) :
  Cprod (map (fun p => Cdiv (u p) (v p)) l)
  = Cdiv (Cprod (map u l)) (Cprod (map v l)).
Proof.
  induction l as [|z l IH]; cbn [map Cprod fold_right].
  - c_unfold. f_equal; field.
  - fold (Cprod (map (fun p => Cdiv (u p) (v p)) l))
         (Cprod (map u l)) (Cprod (map v l)).
    now rewrite IH, Cdiv_mul.
Qed.

Lemma bilinear_factor (p : C) :
  fst p < 0 ->
  Csub C1 (bilinear_map p)
  = Cdiv (Cmul (RtoC (- 2)) p) (Csub (RtoC (2 * 2)) p).
Proof.
  destruct p as [x y]. intros Hx. unfold bilinear_map. c_unfold.
  f_equal; field; nra.
Qed.

(** The DC gain of a low-pass Butterworth design is one. *)
Lemma butter_lowpass_dc (N : Z) (Wn : Q) :
  (1 <= N)%Z -> (0 < Wn)%Q -> (Wn < 1)%Q ->
  exists c, butter N Wn lowpass = Ok c /\ proper c /\
            padlen c = (S (Z.to_nat N) * 3)%nat /\ dc_gain c = 1.
Proof.
  intros HN H0 H1.
  destruct (@butter_proper N Wn lowpass HN H0 H1) as (c & Hc & Hp & Lb & La).
  exists c. split; [exact Hc|]. split; [exact Hp|]. split.
  { unfold padlen. rewrite La, Lb. f_equal. lia. }
  destruct Hp as (_ & Hs & _). clear La Lb.
  rewrite butter_valid in Hc by (assumption || lia).
  injection Hc as <-.
  pose proof (warped_pos H0 H1) as Hw.
  set (w := 2 * 2 * tan (PI * Q2R Wn / 2)) in *.
  pose proof (buttap_poles_left HN) as Hleft.
  pose proof (buttap_poles_length (N := N) ltac:(lia)) as Hlen.
  set (n := Z.to_nat N) in *.
  revert Hs.
  unfold dc_gain, lp2lp_zpk, bilinear_zpk, zpk2tf.
  cbn [fst snd map length app]. fold bilinear_map.
  rewrite sum_map_scale_Re, sum_map_Re, !Csum_poly, Nat.sub_0_r, Hlen.
  set (p1 := map (Cmul (RtoC w)) (buttap_poles N)).
  assert (Hp1 : Forall (fun v => fst v < 0) p1).
  { unfold p1. rewrite Forall_map. revert Hleft. apply Forall_impl.
    intros v. now apply lp2lp_left. }
  (* the zeros *)
  rewrite map_repeat.
  replace (Csub C1 (Cneg C1)) with (RtoC 2) by (c_unfold; f_equal; ring).
  rewrite Cprod_repeat_real.
  (* the poles *)
  rewrite map_map.
  rewrite (map_ext_in (fun x => Csub C1 (bilinear_map x))
             (fun x => Cdiv (Cmul (RtoC (- 2)) x) (Csub (RtoC (2 * 2)) x))).
  2:{ intros v Hv. apply bilinear_factor.
      rewrite Forall_forall in Hp1. now apply Hp1. }
  rewrite (Cprod_div (Cmul (RtoC (- 2))) (Csub (RtoC (2 * 2)))).
  assert (Lp1 : length p1 = n) by (unfold p1; now rewrite length_map).
  assert (Pp1 : Cprod p1 = Cmul (RtoC (w ^ n)) (RtoC ((- 1) ^ n))).
  { unfold p1. now rewrite Cprod_scale, buttap_poles_prod, Hlen by lia. }
  rewrite Cprod_scale, Lp1, Pp1.
  set (D := Cprod (map (Csub (RtoC (2 * 2))) p1)).
  assert (Hnum : Cmul (RtoC ((- 2) ^ n))
                      (Cmul (RtoC (w ^ n)) (RtoC ((- 1) ^ n)))
                 = RtoC (2 ^ n * w ^ n)).
  { assert (HA : (- 1) ^ n * (- 1) ^ n = 1).
    { rewrite <- Rpow_mult_distr. replace (- 1 * - 1) with 1 by ring.
      apply pow1. }
    assert (H2 : (- 2) ^ n = (- 1) ^ n * 2 ^ n).
    { rewrite <- Rpow_mult_distr. f_equal. ring. }
    rewrite H2. c_unfold. f_equal; [|ring].
    transitivity (2 ^ n * w ^ n * ((- 1) ^ n * (- 1) ^ n)); [ring|].
    rewrite HA. ring. }
  rewrite Hnum.
  assert (Hre : forall r, Re (Cdiv (RtoC r) D) = r * Re (Cdiv C1 D)).
  { intros r. destruct D. c_unfold. unfold Rdiv. ring. }
  rewrite Hre.
  change (Cprod []) with C1.
  intros Hs. rewrite Nat.sub_0_r.
  change ((1 * fst D + 0 * snd D) / Cnorm2 D) with (Re (Cdiv C1 D)).
  change (Re (RtoC (2 ^ n))) with (2 ^ n).
  assert (Hr : Re (Cdiv C1 D) <> 0) by (intros E; apply Hs; rewrite E; ring).
  assert (Hwn : w ^ n <> 0) by (intros E; apply Hs; rewrite E; ring).
  assert (H2n : 2 ^ n <> 0) by (intros E; apply Hs; rewrite E; ring).
  field. repeat split; assumption.
Qed.

(** A low-pass filter function on a constant buffer. *)
Lemma low_pass_constant (cutoff : Q) (order : Z) (n : nat) (c : R) :
  (1 <= order)%Z -> (0 < cutoff)%Q -> (cutoff < nyquist)%Q ->
  (3 * (Z.to_nat order + 1) < n)%nat ->
  low_pass_filter (repeat c n) cutoff order = Ok (repeat c n).
Proof.
  intros Ho H0 H1 Hn. unfold low_pass_filter, low_pass_design.
  destruct (@butter_lowpass_dc order (cutoff / nyquist) Ho)
    as ([b a] & Hd & Hp & Hl & Hg);
    [now apply normalized_pos | now apply normalized_lt_1|].
  rewrite Hd. cbn [bind].
  rewrite filtfilt_constant by (assumption || lia).
  rewrite Hg. do 2 f_equal. ring.
Qed.

(** X12.  The low-pass filter returns a constant buffer of more than [3 *
    (order + 1)] samples unchanged, for every order from 1 and every cut-off
    strictly between 0 and the Nyquist frequency: its gain at frequency zero
    is 1. *)
Theorem low_pass_keeps_constant (cutoff : Q) (order : Z) (n : nat) (c : R) :
  (1 <= order)%Z -> (0 < cutoff)%Q -> (cutoff < nyquist)%Q ->
  (3 * (Z.to_nat order + 1) < n)%nat ->
  low_pass_filter (repeat c n) cutoff order = Ok (repeat c n).
Proof. apply low_pass_constant. Qed.

Lemma low_pass_keeps_constant_witness :
  low_pass_filter (repeat 5 16) 5 4 = Ok (repeat 5 16).
Proof.
  apply low_pass_keeps_constant.
  - lia.
  - reflexivity.
  - reflexivity.
  - simpl. lia.
Defined.


(** ** Superposition *)

Section Superposition.
Variables k l : R.

Lemma superpose_length (x y : buffer) :
  length x = length y -> length (superpose k x l y) = length x.
Proof.
  intros H. unfold superpose. rewrite length_map, length_combine. lia.
Qed.

Lemma nth_superpose (x y : buffer) (i : nat) :
  length x = length y -> nth i (superpose k x l y) 0 = k * nth i x 0 + l * nth i y 0.
Proof.
  revert y i. induction x as [|u x IH]; intros [|v y] i H;
    try discriminate H.
  - destruct i; simpl; ring.
  - destruct i; [reflexivity|]. unfold superpose in *.
    cbn [combine map nth]. apply IH. now inversion H.
Qed.

Lemma superpose_app (x1 x2 y1 y2 : buffer) :
  length x1 = length y1 ->
  superpose k (x1 ++ x2) l (y1 ++ y2) = superpose k x1 l y1 ++ superpose k x2 l y2.
Proof.
  revert y1. induction x1 as [|u x1 IH]; intros [|v y1] H;
    try discriminate H; [reflexivity|].
  unfold superpose in *. cbn [app combine map]. f_equal. apply IH.
  now inversion H.
Qed.

Lemma superpose_rev (x y : buffer) :
  length x = length y -> superpose k (rev x) l (rev y) = rev (superpose k x l y).
Proof.
  revert y. induction x as [|u x IH]; intros [|v y] H;
    try discriminate H; [reflexivity|].
  assert (H' : length x = length y) by now inversion H.
  cbn [rev]. rewrite superpose_app by now rewrite !length_rev.
  rewrite IH by assumption. reflexivity.
Qed.

Lemma superpose_firstn (n : nat) (x y : buffer) :
  superpose k (firstn n x) l (firstn n y) = firstn n (superpose k x l y).
Proof.
  revert x y. induction n as [|n IH]; intros [|u x] [|v y]; try reflexivity.
  unfold superpose in *. cbn [firstn combine map]. f_equal. apply IH.
Qed.

Lemma superpose_skipn (n : nat) (x y : buffer) :
  length x = length y -> superpose k (skipn n x) l (skipn n y) = skipn n (superpose k x l y).
Proof.
  revert x y. induction n as [|n IH]; intros [|u x] [|v y] H;
    try discriminate H; try reflexivity.
  cbn [skipn]. unfold superpose in *. cbn [combine map skipn]. apply IH.
  now inversion H.
Qed.

Lemma superpose_reflect (e1 e2 : R) (x y : buffer) :
  map (fun v => 2 * (k * e1 + l * e2) - v) (superpose k x l y)
  = superpose k (map (fun v => 2 * e1 - v) x) l (map (fun v => 2 * e2 - v) y).
Proof.
  revert y. induction x as [|u x IH]; intros [|v y]; try reflexivity.
  unfold superpose in *. cbn [combine map fst snd]. f_equal; [ring | apply IH].
Qed.

Lemma superpose_scale (u w : R) (zi : list R) :
  map (fun v => v * (k * u + l * w)) zi
  = superpose k (map (fun v => v * u) zi) l (map (fun v => v * w) zi).
Proof.
  induction zi as [|z zi IH]; [reflexivity|].
  unfold superpose in *. cbn [combine map fst snd]. f_equal; [ring | apply IH].
Qed.

Lemma odd_ext_superpose (x y : buffer) (n : nat) :
  length x = length y ->
  odd_ext (superpose k x l y) n = superpose k (odd_ext x n) l (odd_ext y n).
Proof.
  intros H. unfold odd_ext.
  rewrite superpose_length, !nth_superpose by assumption.
  rewrite <- H.
  rewrite !superpose_app
    by (rewrite ?length_map, ?length_rev, ?length_firstn, ?length_skipn; lia).
  rewrite <- !superpose_reflect.
  rewrite !superpose_rev
    by (rewrite ?length_firstn, ?length_skipn; lia).
  rewrite !superpose_firstn, !superpose_skipn by assumption.
  reflexivity.
Qed.

Lemma slice_both_superpose (edge : nat) (x y : buffer) :
  length x = length y ->
  slice_both edge (superpose k x l y) = superpose k (slice_both edge x) l (slice_both edge y).
Proof.
  intros H. unfold slice_both.
  rewrite superpose_length by assumption. rewrite <- H.
  now rewrite superpose_firstn, superpose_skipn.
Qed.

Lemma df2t_state_same_length (z1 z2 b a : list R) (x1 y1 x2 y2 : R) :
  length z1 = length z2 ->
  length (df2t_state z1 b a x1 y1) = length (df2t_state z2 b a x2 y2).
Proof.
  revert z2 b a. induction z1 as [|u z1 IH]; intros [|v z2] b a H;
    try discriminate H; [reflexivity|].
  destruct b as [|bi b]; [reflexivity|]. destruct a as [|ai a]; [reflexivity|].
  cbn [df2t_state length]. f_equal. apply IH. now inversion H.
Qed.

Lemma df2t_state_superpose (z1 z2 b a : list R) (x1 y1 x2 y2 : R) :
  length z1 = length z2 ->
  df2t_state (superpose k z1 l z2) b a (k * x1 + l * x2) (k * y1 + l * y2)
  = superpose k (df2t_state z1 b a x1 y1) l (df2t_state z2 b a x2 y2).
Proof.
  revert z2 b a. induction z1 as [|u z1 IH]; intros [|v z2] b a H;
    try discriminate H; [reflexivity|].
  assert (H' : length z1 = length z2) by now inversion H.
  destruct b as [|bi b]; [reflexivity|]. destruct a as [|ai a]; [reflexivity|].
  change (superpose k (u :: z1) l (v :: z2)) with ((k * u + l * v) :: superpose k z1 l z2).
  cbn [df2t_state].
  change (superpose k (?p :: ?s) l (?q :: ?t)) with ((k * p + l * q) :: superpose k s l t).
  f_equal; [|now apply IH].
  rewrite nth_superpose by assumption. ring.
Qed.

Lemma df2t_run_superpose (b a z1 z2 : list R) (x1 x2 : buffer) :
  length z1 = length z2 -> length x1 = length x2 ->
  df2t_run b a (superpose k z1 l z2) (superpose k x1 l x2)
  = (superpose k (fst (df2t_run b a z1 x1)) l (fst (df2t_run b a z2 x2)),
     superpose k (snd (df2t_run b a z1 x1)) l (snd (df2t_run b a z2 x2))).
Proof.
  revert z1 z2 x2. induction x1 as [|u x1 IH]; intros z1 z2 [|v x2] Hz Hx;
    try discriminate Hx; [reflexivity|].
  assert (Hx' : length x1 = length x2) by now inversion Hx.
  change (superpose k (u :: x1) l (v :: x2)) with ((k * u + l * v) :: superpose k x1 l x2).
  cbn [df2t_run]. unfold df2t_step.
  rewrite nth_superpose by assumption.
  replace (k * nth 0 z1 0 + l * nth 0 z2 0 + nth 0 b 0 * (k * u + l * v))
    with (k * (nth 0 z1 0 + nth 0 b 0 * u) + l * (nth 0 z2 0 + nth 0 b 0 * v))
    by ring.
  rewrite df2t_state_superpose by assumption.
  rewrite IH by (assumption || now apply df2t_state_same_length).
  destruct (df2t_run b a (df2t_state z1 _ _ _ _) x1) as [r1 s1].
  destruct (df2t_run b a (df2t_state z2 _ _ _ _) x2) as [r2 s2].
  reflexivity.
Qed.

(** Zero-phase filtering is linear: the filtered weighted sum of two buffers
    of one length is the weighted sum of the filtered buffers. *)
Lemma filtfilt_linear (b a : list R) (x y : buffer) :
  proper (b, a) -> (padlen (b, a) < length x)%nat -> length y = length x ->
  exists fx fy,
    filtfilt b a x = Ok fx /\ filtfilt b a y = Ok fy /\
    length fx = length x /\ length fy = length x /\
    filtfilt b a (superpose k x l y) = Ok (superpose k fx l fy).
Proof.
  intros Hp Hlen Hxy. unfold padlen in Hlen. cbn [fst snd] in Hlen.
  destruct (lfilter_zi_ok Hp) as (zi & Hzi & Lzi).
  pose proof Hp as (Ha & _ & Hn). cbn [fst snd] in Ha, Hn.
  unfold filtfilt. rewrite superpose_length, Hxy by congruence.
  set (edge := (Nat.max (length a) (length b) * 3)%nat) in *.
  destruct (Nat.leb_spec (length x) edge); [lia|].
  destruct (Nat.ltb_spec 0 edge); [|lia].
  rewrite Hzi. cbn [bind].
  rewrite odd_ext_superpose by congruence.
  set (ex := odd_ext x edge). set (ey := odd_ext y edge).
  assert (Le : length ex = length ey).
  { unfold ex, ey. rewrite !odd_ext_length by lia. lia. }
  rewrite nth_superpose by assumption. rewrite superpose_scale.
  set (B := fst (normalize b a)). set (A := snd (normalize b a)).
  assert (Hrun : forall u zz,
            length zz = (Nat.max (length a) (length b) - 1)%nat ->
            lfilter b a u zz = Ok (df2t_run B A zz u)).
  { intros u zz Lz.
    destruct (@lfilter_ok b a u zz Ha Lz) as (r & s & H1 & _ & R1).
    now rewrite H1, R1. }
  assert (Lm : forall v, length (map (fun u => u * v) zi)
                         = (Nat.max (length a) (length b) - 1)%nat)
    by (intros v; now rewrite length_map).
  rewrite !Hrun
    by (rewrite ?superpose_length; rewrite ?length_map; assumption || reflexivity).
  rewrite df2t_run_superpose by (rewrite ?length_map; assumption || reflexivity).
  destruct (df2t_run B A (map (fun v => v * nth 0 ex 0) zi) ex) as [rx sx] eqn:Ex.
  destruct (df2t_run B A (map (fun v => v * nth 0 ey 0) zi) ey) as [ry sy] eqn:Ey.
  cbn [bind fst snd].
  assert (Lrx : length rx = length ex).
  { pose proof (df2t_run_length B A (map (fun v => v * nth 0 ex 0) zi) ex) as E.
    now rewrite Ex in E. }
  assert (Lry : length ry = length ey).
  { pose proof (df2t_run_length B A (map (fun v => v * nth 0 ey 0) zi) ey) as E.
    now rewrite Ey in E. }
  assert (Lr : length rx = length ry) by congruence.
  rewrite superpose_length by assumption.
  rewrite <- superpose_rev by assumption.
  rewrite nth_superpose by assumption. rewrite superpose_scale.
  rewrite <- Lr.
  rewrite !Hrun
    by (rewrite ?superpose_length; rewrite ?length_map; assumption || reflexivity).
  rewrite df2t_run_superpose
    by (rewrite ?length_map, ?length_rev; assumption || reflexivity).
  destruct (df2t_run B A (map (fun v => v * nth (length rx - 1) rx 0) zi) (rev rx))
    as [qx tx] eqn:Fx.
  destruct (df2t_run B A (map (fun v => v * nth (length rx - 1) ry 0) zi) (rev ry))
    as [qy ty] eqn:Fy.
  cbn [bind fst snd].
  assert (Lqx : length qx = length rx).
  { pose proof (df2t_run_length B A
                  (map (fun v => v * nth (length rx - 1) rx 0) zi) (rev rx)) as E.
    rewrite Fx in E. cbn [fst] in E. now rewrite length_rev in E. }
  assert (Lqy : length qy = length ry).
  { pose proof (df2t_run_length B A
                  (map (fun v => v * nth (length rx - 1) ry 0) zi) (rev ry)) as E.
    rewrite Fy in E. cbn [fst] in E. now rewrite length_rev in E. }
  eexists. eexists. split; [reflexivity|]. split; [reflexivity|].
  assert (Lex : length ex = (edge + length x + edge)%nat)
    by (unfold ex; rewrite odd_ext_length by lia; lia).
  split; [rewrite slice_both_length, length_rev; lia|].
  split; [rewrite slice_both_length, length_rev; lia|].
  rewrite <- superpose_rev by congruence.
  rewrite slice_both_superpose by (rewrite !length_rev; congruence).
  reflexivity.
Qed.

End Superposition.


(** ** Linearity of the filter functions and of the cascade *)

(** A filter function of a valid specification is linear on buffers it
    accepts. *)
Lemma stage_superpose (spec : filter_spec) (k l : R) (x y : buffer) :
  regular_spec spec -> (spec_padlen spec < length x)%nat ->
  length y = length x ->
  exists fx fy,
    stage spec x = Ok fx /\ stage spec y = Ok fy /\
    length fx = length x /\ length fy = length x /\
    stage spec (superpose k x l y) = Ok (superpose k fx l fy).
Proof.
  intros Hreg Hlen Hxy.
  destruct (design_regular_padlen spec Hreg) as ([b a] & Hd & Hp & Hl).
  rewrite !stage_design_apply, Hd. cbn [bind]. unfold apply_filter.
  cbn [fst snd]. rewrite <- Hl in Hlen.
  exact (@filtfilt_linear k l b a x y Hp Hlen Hxy).
Qed.

(** The cascade is linear on buffers of more than 15 samples. *)
Lemma cascade_superpose (k l : R) (x y : buffer) :
  (15 < length x)%nat -> length y = length x ->
  exists fx fy,
    cascade x = Ok fx /\ cascade y = Ok fy /\
    length fx = length x /\ length fy = length x /\
    cascade (superpose k x l y) = Ok (superpose k fx l fy).
Proof.
  intros Hlen Hxy. unfold cascade.
  assert (R1 : regular_spec (Notch default_notch_freq default_quality_factor))
    by (repeat split).
  assert (R2 : regular_spec (HighPass default_highpass_cutoff default_order)).
  { repeat split. unfold default_order. lia. }
  assert (R3 : regular_spec (LowPass default_lowpass_cutoff default_order)).
  { repeat split. unfold default_order. lia. }
  assert (P1 : spec_padlen (Notch default_notch_freq default_quality_factor)
               = 9%nat) by reflexivity.
  assert (P2 : spec_padlen (HighPass default_highpass_cutoff default_order)
               = 15%nat) by reflexivity.
  assert (P3 : spec_padlen (LowPass default_lowpass_cutoff default_order)
               = 15%nat) by reflexivity.
  destruct (@stage_superpose _ k l x y R1) as (x1 & y1 & X1 & Y1 & Lx1 & Ly1 & S1);
    [rewrite P1; lia | assumption|].
  destruct (@stage_superpose _ k l x1 y1 R2) as (x2 & y2 & X2 & Y2 & Lx2 & Ly2 & S2);
    [rewrite P2; lia | congruence|].
  destruct (@stage_superpose _ k l x2 y2 R3) as (x3 & y3 & X3 & Y3 & Lx3 & Ly3 & S3);
    [rewrite P3; lia | congruence|].
  cbn [stage] in *.
  rewrite X1, Y1, S1. cbn [bind]. rewrite X2, Y2, S2. cbn [bind].
  exists x3, y3. repeat split; try assumption; congruence.
Qed.

Lemma superpose_offset (c : R) (x : buffer) :
  superpose 1 x 1 (repeat c (length x)) = map (fun v => v + c) x.
Proof.
  induction x as [|u x IH]; [reflexivity|].
  unfold superpose in *. cbn [length repeat combine map fst snd].
  f_equal; [ring | exact IH].
Qed.

(** X13.  A filter function of a valid specification is linear: on two buffers
    of one length, longer than the padding, the filtered weighted sum [k * x +
    l * y] is the weighted sum of the two filtered buffers. *)
Theorem stage_linear (spec : filter_spec) (k l : R) (x y : buffer) :
  regular_spec spec -> (spec_padlen spec < length x)%nat ->
  length y = length x ->
  exists fx fy,
    stage spec x = Ok fx /\ stage spec y = Ok fy /\
    length fx = length x /\ length fy = length x /\
    stage spec (superpose k x l y) = Ok (superpose k fx l fy).
Proof. apply stage_superpose. Qed.

Lemma stage_linear_witness :
  exists fx fy,
    stage (Notch 50 30) (repeat 1 10) = Ok fx /\
    stage (Notch 50 30) (repeat 2 10) = Ok fy /\
    length fx = length (repeat 1 10) /\ length fy = length (repeat 1 10) /\
    stage (Notch 50 30) (superpose 3 (repeat 1 10) 4 (repeat 2 10))
    = Ok (superpose 3 fx 4 fy).
Proof.
  apply stage_linear.
  - repeat split.
  - simpl. lia.
  - reflexivity.
Defined.

(** X16.  The cascade is linear: on two buffers of one length above 15 the
    cascade of the weighted sum [k * x + l * y] is the weighted sum of the two
    cascade outputs. *)
Theorem cascade_linear (k l : R) (x y : buffer) :
  (15 < length x)%nat -> length y = length x ->
  exists fx fy,
    cascade x = Ok fx /\ cascade y = Ok fy /\
    length fx = length x /\ length fy = length x /\
    cascade (superpose k x l y) = Ok (superpose k fx l fy).
Proof. apply cascade_superpose. Qed.

Lemma cascade_linear_witness :
  exists fx fy,
    cascade (repeat 1 16) = Ok fx /\ cascade (repeat 2 16) = Ok fy /\
    length fx = length (repeat 1 16) /\ length fy = length (repeat 1 16) /\
    cascade (superpose 3 (repeat 1 16) 4 (repeat 2 16))
    = Ok (superpose 3 fx 4 fy).
Proof.
  apply cascade_linear.
  - simpl. lia.
  - reflexivity.
Defined.

(** X17.  A constant offset added to every sample of a buffer of more than 15
    samples does not change what the cascade returns (and the cascade does
    return). *)
Theorem cascade_offset_invariant (c : R) (x : buffer) :
  (15 < length x)%nat ->
  cascade (map (fun v => v + c) x) = cascade x /\ succeeds (cascade x).
Proof.
  intros Hlen.
  destruct (@cascade_superpose 1 1 x (repeat c (length x)) Hlen)
    as (fx & fy & Hx & Hy & Lx & Ly & Hs); [apply repeat_length|].
  rewrite superpose_offset in Hs.
  rewrite cascade_constant in Hy by assumption. injection Hy as <-.
  rewrite Hs, Hx. split; [|now exists fx].
  f_equal. rewrite <- Lx. clear.
  induction fx as [|u fx IH]; [reflexivity|].
  unfold superpose in *. cbn [length repeat combine map fst snd].
  f_equal; [ring | exact IH].
Qed.

Lemma cascade_offset_invariant_witness :
  cascade (map (fun v => v + 7) (repeat 1 16)) = cascade (repeat 1 16) /\
  succeeds (cascade (repeat 1 16)).
Proof. apply cascade_offset_invariant. simpl. lia. Defined.


(** ** The frequency response of the designs *)

Lemma angular_normalized (f : Q) :
  Q2R (2 * (f / nyquist) / 2) * PI = angular f.
Proof.
  assert (E : (2 * (f / nyquist) / 2 == f / nyquist)%Q)
    by (field; discriminate).
  rewrite (Qeq_eqR _ _ E).
  rewrite Q2R_div by discriminate.
  unfold angular.
  replace (Q2R nyquist) with 500 by (unfold Q2R; simpl; lra).
  replace (Q2R fs) with 1000 by (unfold Q2R; simpl; lra).
  field.
Qed.

(** X7.  Whenever the notch is designed, its numerator vanishes on the unit
    circle at the centre frequency, so that a sinusoid of that frequency is
    blocked, and numerator and denominator take the same value at frequency 0
    and at the Nyquist frequency. *)
Theorem notch_design_response (f q : Q) (b a : list R) :
  notch_design f q = Ok (b, a) ->
  response b (angular f) = C0 /\
  response b 0 = response a 0 /\
  response b PI = response a PI.
Proof.
  unfold notch_design, iirnotch. destruct (_ || _); [discriminate|].
  destruct (Qeq_bool q 0); [discriminate|].
  intros H. injection H as <- <-.
  rewrite angular_normalized.
  set (w := angular f). set (g := 1 / (1 + _)).
  unfold response. cbn [map length seq combine fold_right fst snd].
  unfold Cadd, Cmul, RtoC, Cexp_i, C0. cbn [fst snd INR].
  repeat split.
  - replace (- (0 * w)) with 0 by ring.
    replace (- (1 * w)) with (- w) by ring.
    replace (- ((1 + 1) * w)) with (- (2 * w)) by ring.
    rewrite !cos_neg, !sin_neg, cos_0, sin_0, cos_2a_cos, sin_2a.
    f_equal; ring.
  - replace (- (0 * 0)) with 0 by ring.
    replace (- (1 * 0)) with 0 by ring.
    replace (- ((1 + 1) * 0)) with 0 by ring.
    rewrite cos_0, sin_0. f_equal; ring.
  - replace (- (0 * PI)) with 0 by ring.
    replace (- (1 * PI)) with (- PI) by ring.
    replace (- ((1 + 1) * PI)) with (- (2 * PI)) by ring.
    rewrite !cos_neg, !sin_neg, cos_0, sin_0, cos_PI, sin_PI, cos_2PI, sin_2PI.
    f_equal; ring.
Qed.

Lemma notch_design_response_witness :
  exists b a, notch_design 50 30 = Ok (b, a) /\ response b (angular 50) = C0.
Proof.
  do 2 eexists. split; [reflexivity|].
  eapply (proj1 (@notch_design_response 50 30 _ _ eq_refl)).
Defined.


Lemma butter_monic (N : Z) (Wn : Q) (bt : btype) (b a : list R) :
  (0 <= N)%Z -> (0 < Wn)%Q -> (Wn < 1)%Q ->
  butter N Wn bt = Ok (b, a) -> nth 0 a 0 = 1.
Proof.
  intros HN H0 H1. rewrite butter_valid by assumption.
  destruct bt; unfold lp2lp_zpk, lp2hp_zpk, bilinear_zpk, zpk2tf;
    cbn [fst snd]; intros H; injection H as _ <-; fold bilinear_map;
    apply digital_poles_monic.
Qed.

(** X6.  The design of a valid specification is normalised: the leading
    feedback coefficient is 1, numerator and denominator have 3 coefficients
    for a notch and [order + 1] for a high-pass or low-pass, and the
    denominator does not vanish at [z = 1]. *)
Theorem design_normalized (spec : filter_spec) :
  regular_spec spec ->
  exists b a,
    design spec = Ok (b, a) /\ nth 0 a 0 = 1 /\
    length b = spec_taps spec /\ length a = spec_taps spec /\
    sum a <> 0.
Proof.
  intros Hreg.
  destruct spec as [f q|f n|f n]; cbn [regular_spec design spec_taps] in *;
    destruct Hreg as (H0 & H1 & H2).
  - unfold notch_design.
    destruct (@iirnotch_proper (f / nyquist) q) as ([b a] & Hd & Hp & _);
      [now apply normalized_pos | now apply normalized_lt_1 | assumption|].
    exists b, a. split; [exact Hd|].
    destruct Hp as (_ & Hs & _). cbn [snd] in Hs.
    unfold iirnotch in Hd. destruct (_ || _); [discriminate|].
    destruct (Qeq_bool q 0); [discriminate|].
    injection Hd as <- <-. repeat split. exact Hs.
  - unfold high_pass_design.
    destruct (@butter_proper n (f / nyquist) highpass H2)
      as ([b a] & Hd & Hp & Lb & La);
      [now apply normalized_pos | now apply normalized_lt_1|].
    exists b, a. cbn [fst snd] in *. split; [exact Hd|]. split.
    { eapply butter_monic; [| | |exact Hd];
        [lia | now apply normalized_pos | now apply normalized_lt_1]. }
    destruct Hp as (_ & Hs & _). repeat split; try assumption; lia.
  - unfold low_pass_design.
    destruct (@butter_proper n (f / nyquist) lowpass H2)
      as ([b a] & Hd & Hp & Lb & La);
      [now apply normalized_pos | now apply normalized_lt_1|].
    exists b, a. cbn [fst snd] in *. split; [exact Hd|]. split.
    { eapply butter_monic; [| | |exact Hd];
        [lia | now apply normalized_pos | now apply normalized_lt_1]. }
    destruct Hp as (_ & Hs & _). repeat split; try assumption; lia.
Qed.

Lemma design_normalized_witness :
  exists b a, design (LowPass 10 4) = Ok (b, a) /\ nth 0 a 0 = 1.
Proof.
  destruct (@design_normalized (LowPass 10 4)) as (b & a & H & H1 & _).
  - repeat split. lia.
  - exists b, a. split; assumption.
Defined.


(** ** The generator, sample by sample *)

Lemma nth_vadd (x y : buffer) (i : nat) :
  length x = length y -> (i < length x)%nat ->
  nth i (vadd x y) 0 = nth i x 0 + nth i y 0.
Proof.
  intros Hl Hi. unfold vadd.
  rewrite (nth_map_in (fun p => fst p + snd p) (0, 0) 0)
    by (rewrite length_combine; lia).
  now rewrite combine_nth.
Qed.

(** The generator, spelled out: what it returns once [linspace] has
    returned the time grid. *)
Lemma generate_ppg_signal_run (d : Q) (g : rng_state) (t : list Q) :
  linspace 0 d (int (fs * d)) = Ok t ->
  generate_ppg_signal d g
  = (Ok (t,
         vadd (vadd (vadd (vadd (map clean_at (map Q2R t))
                                (map baseline_drift_at (map Q2R t)))
                          (map motion_at (map Q2R t)))
                    (map powerline_at (map Q2R t)))
              (map (Rmult 0.1) (map g (seq 0 (length t)))),
         map clean_at (map Q2R t)),
     fun k => g (length t + k)%nat).
Proof. intros Ht. unfold generate_ppg_signal. rewrite Ht. reflexivity. Qed.

Lemma generate_ppg_signal_grid_ok (d : Q) :
  (0 < d)%Q ->
  exists t, linspace 0 d (int (fs * d)) = Ok t /\
            length t = Z.to_nat (Qfloor (fs * d)).
Proof.
  intros Hd.
  assert (Hq : (0 <= fs * d)%Q).
  { apply Qmult_le_0_compat; [discriminate | now apply Qlt_le_weak]. }
  assert (HN : (0 <= Qfloor (fs * d))%Z).
  { change 0%Z with (Qfloor 0). now apply Qfloor_resp_le. }
  rewrite (int_floor Hq).
  destruct (linspace_spec 0 d HN) as (t & Ht & Hlen & _). eauto.
Qed.

(** X2.  Whenever the generator returns, the three arrays have one length;
    sample [i] of the clean array is the pulse formula at the sample time, and
    sample [i] of the noisy array is the clean sample plus the baseline drift,
    the motion artifact and the power-line interference at the sample time
    plus a tenth of the [i]-th draw of the random generator; the generator is
    left advanced by exactly as many draws as there are samples. *)
Theorem generate_ppg_signal_noise (d : Q) (g g' : rng_state)
        (t : list Q) (noisy clean : buffer) :
  generate_ppg_signal d g = (Ok (t, noisy, clean), g') ->
  length noisy = length t /\ length clean = length t /\
  g' = (fun k => g (length t + k)%nat) /\
  forall i, (i < length t)%nat ->
    nth i clean 0 = clean_at (Q2R (nth i t 0%Q)) /\
    nth i noisy 0
    = nth i clean 0 + baseline_drift_at (Q2R (nth i t 0%Q))
      + motion_at (Q2R (nth i t 0%Q)) + powerline_at (Q2R (nth i t 0%Q))
      + 0.1 * g i.
Proof.
  intros Hrun.
  destruct (linspace 0 d (int (fs * d))) as [t'|e] eqn:Ht.
  2:{ unfold generate_ppg_signal in Hrun. rewrite Ht in Hrun. discriminate. }
  rewrite (@generate_ppg_signal_run _ g _ Ht) in Hrun.
  injection Hrun as <- <- <- <-.
  set (N := length t').
  assert (Lm : forall f : R -> R, length (map f (map Q2R t')) = N)
    by (intros f; now rewrite !length_map).
  assert (Ld : length (map (Rmult 0.1) (map g (seq 0 N))) = N)
    by now rewrite !length_map, length_seq.
  split; [rewrite !vadd_length, !Lm, Ld; lia|].
  split; [apply Lm|]. split; [reflexivity|].
  intros i Hi. split.
  - rewrite (nth_map_in _ 0 0) by (rewrite length_map; exact Hi).
    now rewrite (nth_map_in Q2R 0%Q 0) by exact Hi.
  - rewrite !nth_vadd; rewrite ?vadd_length, ?Lm, ?Ld; try lia.
    rewrite !(nth_map_in _ 0 0) by (rewrite length_map; lia).
    rewrite !(nth_map_in Q2R 0%Q 0) by lia.
    rewrite (nth_map_in (Rmult 0.1) 0 0) by (rewrite length_map, length_seq; lia).
    rewrite (nth_map_in g 0%nat 0) by (rewrite length_seq; lia).
    rewrite seq_nth by lia. reflexivity.
Qed.

Lemma generate_ppg_signal_noise_witness :
  exists t noisy clean g',
    generate_ppg_signal 10 (fun _ => 1) = (Ok (t, noisy, clean), g') /\
    length noisy = length t /\ length clean = length t.
Proof.
  destruct (@generate_ppg_signal_grid_ok 10 eq_refl) as (t & Ht & _).
  pose proof (@generate_ppg_signal_run 10 (fun _ => 1) t Ht) as E.
  do 4 eexists. split; [exact E|].
  destruct (@generate_ppg_signal_noise _ _ _ _ _ _ E) as (Ln & Lc & _).
  split; assumption.
Defined.

(** X3.  Whatever the duration, a clean sample is at most 1.3 in absolute
    value, and a noisy sample is away from its clean sample by at most 1 (the
    three sinusoidal disturbances, 0.5 + 0.3 + 0.2) plus a tenth of the
    absolute value of its random draw. *)
Theorem generate_ppg_signal_bounds (d : Q) (g : rng_state)
        (t : list Q) (noisy clean : buffer) (i : nat) :
  fst (generate_ppg_signal d g) = Ok (t, noisy, clean) ->
  (i < length clean)%nat ->
  Rabs (nth i clean 0) <= 1.3 /\
  Rabs (nth i noisy 0 - nth i clean 0) <= 1 + 0.1 * Rabs (g i).
Proof.
  intros Hrun Hi. unfold generate_ppg_signal in Hrun.
  destruct (linspace 0 d (int (fs * d))) as [t'|e] eqn:Ht; [|discriminate].
  cbn [fst randn] in Hrun. injection Hrun as <- <- <-.
  set (N := length t') in *.
  assert (Lm : forall f : R -> R, length (map f (map Q2R t')) = N)
    by (intros f; now rewrite !length_map).
  assert (Ld : length (map (Rmult 0.1) (map g (seq 0 N))) = N)
    by now rewrite !length_map, length_seq.
  rewrite Lm in Hi.
  rewrite !nth_vadd; rewrite ?vadd_length, ?Lm, ?Ld; try lia.
  rewrite !(nth_map_in _ 0 0) by (rewrite length_map; lia).
  rewrite (nth_map_in (Rmult 0.1) 0 0) by (rewrite length_map, length_seq; lia).
  rewrite (nth_map_in g 0%nat 0) by (rewrite length_seq; lia).
  rewrite seq_nth by lia. cbn [Nat.add].
  set (s := nth i (map Q2R t') 0).
  unfold clean_at, baseline_drift_at, motion_at, powerline_at.
  pose proof (SIN_bound (2 * PI * 1.25 * s)).
  pose proof (SIN_bound (4 * PI * 1.25 * s)).
  pose proof (SIN_bound (2 * PI * 0.25 * s)).
  pose proof (SIN_bound (2 * PI * 0.1 * s)).
  pose proof (SIN_bound (2 * PI * 50 * s)).
  split.
  - apply Rabs_le. lra.
  - apply Rabs_le. unfold Rabs. destruct (Rcase_abs (g i)); lra.
Qed.

Lemma generate_ppg_signal_bounds_witness :
  exists t noisy clean,
    fst (generate_ppg_signal 10 (fun _ => 0)) = Ok (t, noisy, clean) /\
    Rabs (nth 0 clean 0) <= 1.3.
Proof.
  destruct (@generate_ppg_signal_spec 10 (fun _ => 0) eq_refl)
    as (t & noisy & clean & Hrun & _ & _ & Lc & _).
  exists t, noisy, clean. split; [exact Hrun|].
  refine (proj1 (@generate_ppg_signal_bounds 10 (fun _ => 0) t noisy clean
                   0%nat Hrun _)).
  rewrite Lc. change (Qfloor (fs * 10)) with 10000%Z. lia.
Defined.

(** The sample count of a whole number of seconds. *)
Lemma whole_seconds_count (n : Z) : Qfloor (fs * inject_Z n) = (1000 * n)%Z.
Proof.
  unfold fs. change (1000 : Q) with (inject_Z 1000).
  rewrite <- inject_Z_mult. apply Qfloor_Z.
Qed.

(** X1.  For a duration of [n] whole seconds, [n > 0], the generator returns
    three arrays of [1000 * n] entries each; the time grid starts at 0, ends
    at [n] and has its sample [i] at [i * n / (1000 * n - 1)], and this step
    is strictly longer than the sampling period [1 / fs]. *)
Theorem generate_ppg_signal_time_grid (n : Z) (g : rng_state) :
  (0 < n)%Z ->
  let d := inject_Z n in
  let N := (1000 * n)%Z in
  let step := (d / inject_Z (N - 1))%Q in
  exists t noisy clean,
    fst (generate_ppg_signal d g) = Ok (t, noisy, clean) /\
    length t = Z.to_nat N /\ length noisy = Z.to_nat N /\
    length clean = Z.to_nat N /\
    (nth 0 t 0 == 0)%Q /\ (nth (Z.to_nat N - 1) t 0 == d)%Q /\
    (forall i, (i < Z.to_nat N)%nat ->
               (nth i t 0 == inject_Z (Z.of_nat i) * step)%Q) /\
    (1 / fs < step)%Q.
Proof.
  intros Hn d N step.
  assert (Hd : (0 < d)%Q) by (unfold d; rewrite <- (Zlt_Qlt 0); exact Hn).
  destruct (@generate_ppg_signal_spec d g Hd)
    as (t & noisy & clean & Hrun & Lt & Ln & Lc & Hi).
  unfold d in Lt, Ln, Lc, Hi. rewrite whole_seconds_count in Lt, Ln, Lc, Hi.
  fold N d in Lt, Ln, Lc, Hi.
  assert (H1 : (1 < N)%Z) by (unfold N; lia).
  exists t, noisy, clean. repeat split; try assumption.
  - destruct (Hi 0%nat ltac:(lia)) as [_ H0]. rewrite (H0 H1). simpl. ring.
  - destruct (Hi (Z.to_nat N - 1)%nat ltac:(lia)) as [_ H0]. rewrite (H0 H1).
    replace (Z.of_nat (Z.to_nat N - 1)) with (N - 1)%Z by lia.
    field. unfold Qeq, inject_Z; simpl. lia.
  - intros i Hlt. destruct (Hi i Hlt) as [_ H0]. exact (H0 H1).
  - unfold step. apply Qlt_shift_div_l.
    + rewrite <- (Zlt_Qlt 0). lia.
    + assert (Hlt : (inject_Z (N - 1) < fs * d)%Q).
      { unfold d, fs. change (1000 : Q) with (inject_Z 1000).
        rewrite <- inject_Z_mult, <- Zlt_Qlt. unfold N. lia. }
      assert (Hfs : (1 / fs * inject_Z (N - 1) < 1 / fs * (fs * d))%Q)
        by (apply Qmult_lt_l; [reflexivity | exact Hlt]).
      setoid_replace (1 / fs * (fs * d))%Q with d in Hfs by (unfold fs; field).
      exact Hfs.
Qed.

Lemma generate_ppg_signal_time_grid_witness :
  exists t noisy clean,
    fst (generate_ppg_signal (inject_Z 10) (fun _ => 0)) = Ok (t, noisy, clean) /\
    length t = Z.to_nat (1000 * 10).
Proof.
  destruct (@generate_ppg_signal_time_grid 10 (fun _ => 0) eq_refl)
    as (t & noisy & clean & H & L & _).
  exists t, noisy, clean. split; assumption.
Defined.

Lemma int_small (q : Q) : (- (1) < q)%Q -> (q < 1)%Q -> int q = 0%Z.
Proof.
  destruct q as [n dn]. unfold Qlt, int. simpl. intros Hlo Hhi.
  destruct (Z.le_gt_cases 0 n).
  - apply Z.quot_small. lia.
  - rewrite <- (Z.opp_involutive n), Z.quot_opp_l by lia.
    rewrite Z.quot_small by lia. reflexivity.
Qed.

Lemma int_negative (q : Q) : (q <= - (1))%Q -> (int q < 0)%Z.
Proof.
  destruct q as [n dn]. unfold Qle, int. simpl. intros H.
  assert (Hq : (- n ÷ Z.pos dn >= 1)%Z).
  { apply Z.le_ge. apply Z.quot_le_lower_bound; lia. }
  rewrite <- (Z.opp_involutive n), Z.quot_opp_l by lia. lia.
Qed.

(** X4.  Durations that give no sample. When [fs * duration <= -1] the
    generator raises the [ValueError] of [linspace] for a negative count; when
    [-1 < fs * duration < 1] (so also for a duration of 0) the count is
    truncated to 0 and the generator returns three empty arrays. No random
    number is drawn in either case. *)
Theorem generate_ppg_signal_degenerate (d : Q) (g : rng_state) :
  ((fs * d <= - (1))%Q -> generate_ppg_signal d g = (Raise ValueError, g)) /\
  ((- (1) < fs * d)%Q -> (fs * d < 1)%Q ->
   generate_ppg_signal d g = (Ok ([], [], []), g)).
Proof.
  split.
  - intros H. apply int_negative in H. unfold generate_ppg_signal, linspace.
    destruct (Z.ltb_spec (int (fs * d)) 0); [reflexivity | lia].
  - intros Hlo Hhi. unfold generate_ppg_signal.
    rewrite (int_small Hlo Hhi). reflexivity.
Qed.

Lemma generate_ppg_signal_degenerate_witness :
  generate_ppg_signal (- (1)) (fun _ => 0) = (Raise ValueError, fun _ => 0).
Proof.
  apply (proj1 (generate_ppg_signal_degenerate (- (1)) (fun _ => 0))).
  discriminate.
Defined.

(** X5.  The time grid and the clean array depend on the duration alone, not
    on the random generator; two runs succeed or fail together, and they give
    the same noisy array when the generators agree on the draws that are used.
    *)
Theorem generate_ppg_signal_reference (d : Q) (g1 g2 : rng_state) :
  match fst (generate_ppg_signal d g1), fst (generate_ppg_signal d g2) with
  | Ok (t1, noisy1, clean1), Ok (t2, noisy2, clean2) =>
      t1 = t2 /\ clean1 = clean2 /\
      ((forall i, (i < length t1)%nat -> g1 i = g2 i) -> noisy1 = noisy2)
  | Raise e1, Raise e2 => e1 = e2
  | _, _ => False
  end.
Proof.
  unfold generate_ppg_signal.
  destruct (linspace 0 d (int (fs * d))) as [t|e]; cbn [fst randn]; [|reflexivity].
  repeat split. intros Hg. do 2 f_equal.
  apply map_ext_in. intros i Hi. apply in_seq in Hi. apply Hg. lia.
Qed.


(** ** The spectrum analyzer on arbitrary buffers *)

(** X18.  The spectrum analyzer fails on the empty buffer and on no other. *)
Theorem compute_spectrum_fails_iff (data : buffer) :
  fails (compute_spectrum data) <-> data = [].
Proof.
  split.
  - intros [e He]. destruct data as [|x data]; [reflexivity|].
    rewrite compute_spectrum_run in He by discriminate. discriminate.
  - intros ->. exists ValueError. reflexivity.
Qed.

Lemma abs_nonneg (z : C) : 0 <= abs z.
Proof. unfold abs. apply sqrt_pos. Qed.

(** X19.  On a non-empty buffer of [N] samples the analyzer returns [(N - 1) /
    2 + 1] frequencies and as many magnitudes; frequency [j] is [j * fs / N]
    and no magnitude is negative. *)
Theorem compute_spectrum_shape (data : buffer) :
  data <> [] ->
  let N := length data in
  exists freqs mags,
    compute_spectrum data = Ok (freqs, mags) /\
    length freqs = ((N - 1) / 2 + 1)%nat /\
    length mags = length freqs /\
    (forall j, (j < length freqs)%nat ->
       (nth j freqs 0 == inject_Z (Z.of_nat j) * fs / inject_Z (Z.of_nat N))%Q) /\
    Forall (fun m => 0 <= m) mags.
Proof.
  intros Hne N.
  assert (HN : (0 < N)%nat) by (unfold N; destruct data; simpl; [congruence | lia]).
  rewrite (compute_spectrum_run Hne). fold N.
  do 2 eexists. split; [reflexivity|].
  rewrite !length_map, (retained_seq HN), length_seq.
  repeat split.
  - intros j Hj.
    rewrite (nth_map_in (bin_frequency N) 0%nat) by now rewrite length_seq.
    rewrite seq_nth by lia. cbn [Nat.add].
    rewrite (bin_frequency_value j HN). unfold bin_label.
    destruct (Nat.ltb_spec j ((N - 1) / 2 + 1)); [reflexivity | lia].
  - apply Forall_forall. intros m Hm. apply in_map_iff in Hm.
    destruct Hm as (k & <- & _).
    apply Rmult_le_pos; [|apply abs_nonneg].
    apply Rlt_le, Rdiv_lt_0_compat; [lra | now apply lt_0_INR].
Qed.

Lemma dft_fold_dc (N : R) (x : buffer) (s : nat) :
  fold_right Cadd C0
    (map (fun p => Cmul (RtoC (snd p))
                        (Cexp_i (- (2 * PI * INR 0 * INR (fst p) / N))))
         (combine (seq s (length x)) x))
  = (sum x, 0).
Proof.
  revert s. induction x as [|v x IH]; intros s; [reflexivity|].
  cbn [length seq combine map fold_right fst snd]. rewrite IH.
  replace (- (2 * PI * INR 0 * INR s / N)) with 0
    by (simpl; unfold Rdiv; ring).
  unfold Cadd, Cmul, RtoC, Cexp_i. cbn [fst snd]. rewrite cos_0, sin_0.
  change (sum (v :: x)) with (v + sum x). f_equal; ring.
Qed.

(** X20.  On a non-empty buffer the first bin of the spectrum is at frequency
    0 and its magnitude is twice the absolute value of the mean of the buffer
    (the factor [2 / N] is applied to the bin of frequency zero as well). *)
Theorem compute_spectrum_dc (data : buffer) :
  data <> [] ->
  exists freqs mags,
    compute_spectrum data = Ok (freqs, mags) /\
    (nth 0 freqs 0 == 0)%Q /\
    nth 0 mags 0 = 2 * Rabs (mean data).
Proof.
  intros Hne.
  assert (HN : (0 < length data)%nat)
    by (destruct data; simpl; [congruence | lia]).
  rewrite (compute_spectrum_run Hne).
  do 2 eexists. split; [reflexivity|].
  rewrite (retained_seq HN).
  replace ((length data - 1) / 2 + 1)%nat with (S ((length data - 1) / 2)) by lia.
  cbn [seq map nth]. split.
  - rewrite (bin_frequency_value 0 HN). unfold bin_label.
    destruct (Nat.ltb_spec 0 ((length data - 1) / 2 + 1)); [|lia].
    unfold Qdiv. simpl inject_Z. ring.
  - unfold dft_bin. rewrite dft_fold_dc. unfold abs, mean. cbn [fst snd].
    replace (sum data * sum data + 0 * 0) with (Rsqr (sum data))
      by (unfold Rsqr; ring).
    rewrite sqrt_Rsqr_abs.
    assert (Hn : 0 < INR (length data)) by now apply lt_0_INR.
    unfold Rdiv at 2. rewrite Rabs_mult, (Rabs_right (/ _)).
    + field. lra.
    + apply Rle_ge, Rlt_le, Rinv_0_lt_compat, Hn.
Qed.

Lemma dft_fold_scale (k N : R) (j : nat) (x : buffer) (s : nat) :
  fold_right Cadd C0
    (map (fun p => Cmul (RtoC (snd p))
                        (Cexp_i (- (2 * PI * INR j * INR (fst p) / N))))
         (combine (seq s (length (map (Rmult k) x))) (map (Rmult k) x)))
  = Cmul (RtoC k)
      (fold_right Cadd C0
         (map (fun p => Cmul (RtoC (snd p))
                             (Cexp_i (- (2 * PI * INR j * INR (fst p) / N))))
              (combine (seq s (length x)) x))).
Proof.
  revert s. induction x as [|v x IH]; intros s.
  - simpl. unfold Cmul, RtoC, C0. cbn [fst snd]. f_equal; ring.
  - cbn [length seq combine map fold_right fst snd]. rewrite IH.
    set (e := Cexp_i _). set (r := fold_right _ _ _).
    destruct e, r. unfold Cadd, Cmul, RtoC. cbn [fst snd]. f_equal; ring.
Qed.

Lemma dft_bin_scale (k : R) (x : buffer) (j : nat) :
  dft_bin (map (Rmult k) x) j = Cmul (RtoC k) (dft_bin x j).
Proof.
  unfold dft_bin. rewrite dft_fold_scale. now rewrite length_map.
Qed.

Lemma abs_scale (k : R) (z : C) : abs (Cmul (RtoC k) z) = Rabs k * abs z.
Proof.
  destruct z as [a b]. unfold abs, Cmul, RtoC. cbn [fst snd].
  replace ((k * a - 0 * b) * (k * a - 0 * b) + (k * b + 0 * a) * (k * b + 0 * a))
    with (Rsqr k * (a * a + b * b)) by (unfold Rsqr; ring).
  rewrite sqrt_mult_alt by apply Rle_0_sqr.
  now rewrite sqrt_Rsqr_abs.
Qed.

(** X21.  Multiplying every sample of a non-empty buffer by [k] leaves the
    frequencies of its spectrum unchanged and multiplies every magnitude by
    the absolute value of [k]. *)
Theorem compute_spectrum_scale (k : R) (data : buffer) :
  data <> [] ->
  exists freqs mags,
    compute_spectrum data = Ok (freqs, mags) /\
    compute_spectrum (map (Rmult k) data)
    = Ok (freqs, map (Rmult (Rabs k)) mags).
Proof.
  intros Hne.
  assert (Hne' : map (Rmult k) data <> []) by (destruct data; [congruence | discriminate]).
  rewrite (compute_spectrum_run Hne), (compute_spectrum_run Hne').
  do 2 eexists. split; [reflexivity|].
  rewrite length_map, map_map. do 2 f_equal.
  apply map_ext. intros j. rewrite dft_bin_scale, abs_scale. ring.
Qed.

Lemma compute_spectrum_scale_witness :
  exists freqs mags,
    compute_spectrum [1; 2] = Ok (freqs, mags) /\
    compute_spectrum (map (Rmult 3) [1; 2])
    = Ok (freqs, map (Rmult (Rabs 3)) mags).
Proof. apply compute_spectrum_scale. discriminate. Defined.

Lemma compute_spectrum_shape_witness :
  exists freqs mags,
    compute_spectrum [1; 2; 3] = Ok (freqs, mags) /\
    length freqs = 2%nat.
Proof.
  destruct (@compute_spectrum_shape [1; 2; 3]) as (f & m & H & L & _).
  - discriminate.
  - exists f, m. split; [exact H | exact L].
Defined.

Lemma compute_spectrum_dc_witness :
  exists freqs mags,
    compute_spectrum [1; 2; 3] = Ok (freqs, mags) /\
    nth 0 mags 0 = 2 * Rabs (mean [1; 2; 3]).
Proof.
  destruct (@compute_spectrum_dc [1; 2; 3]) as (f & m & H & _ & D).
  - discriminate.
  - exists f, m. split; [exact H | exact D].
Defined.


(** ** Invariances of the quality evaluator *)

Lemma ln_quotient (x y : R) : 0 < x -> 0 < y -> ln (x / y) = ln x - ln y.
Proof.
  intros Hx Hy. unfold Rdiv.
  rewrite ln_mult, ln_Rinv by (try apply Rinv_0_lt_compat; assumption). ring.
Qed.

(** X22.  On buffers of one length with a clean array of positive variance and
    residuals of non-zero variance, the reported improvement is the ratio of
    the noise power before to the noise power after, in decibels; the variance
    of the clean array cancels. *)
Theorem evaluate_improvement (clean noisy filtered : buffer) :
  length noisy = length clean ->
  length filtered = length clean ->
  0 < variance clean ->
  variance (residual noisy clean) <> 0 ->
  variance (residual filtered clean) <> 0 ->
  exists r,
    evaluate clean noisy filtered = Ok r /\
    improvement r
    = Fin (10 * (ln (variance (residual noisy clean)
                     / variance (residual filtered clean)) / ln 10)).
Proof.
  intros Hn Hf Hc Vn Vf.
  assert (Hne : clean <> []).
  { intros ->. unfold variance in Hc. simpl in Hc. lra. }
  unfold evaluate.
  rewrite (subtract_same_length _ _ Hn), (subtract_same_length _ _ Hf).
  cbn [bind]. eexists. split; [reflexivity|]. cbn [improvement].
  rewrite (snr_formula Hne Vn), (snr_formula Hne Vf).
  pose proof (variance_nonneg (residual noisy clean)).
  pose proof (variance_nonneg (residual filtered clean)).
  set (vc := variance clean) in *.
  set (vb := variance (residual noisy clean)) in *.
  set (va := variance (residual filtered clean)) in *.
  assert (0 < vc / vb) by (apply Rdiv_lt_0_compat; lra).
  assert (0 < vc / va) by (apply Rdiv_lt_0_compat; lra).
  unfold decibels.
  destruct (Req_dec_T (vc / va) 0); [lra|].
  destruct (Req_dec_T (vc / vb) 0); [lra|].
  cbn [fsub]. f_equal.
  rewrite !ln_quotient by lra. unfold Rdiv. ring.
Qed.

Lemma evaluate_improvement_witness :
  exists r,
    evaluate [0; 1] [0; 3] [0; 2] = Ok r /\
    improvement r
    = Fin (10 * (ln (variance (residual [0; 3] [0; 1])
                     / variance (residual [0; 2] [0; 1])) / ln 10)).
Proof.
  apply evaluate_improvement; try reflexivity;
    unfold residual; cbn [combine map fst snd]; rewrite variance_two; lra.
Defined.

Lemma sum_shift (c : R) (x : buffer) :
  sum (map (Rplus c) x) = c * INR (length x) + sum x.
Proof.
  induction x as [|v x IH]; [simpl; ring|].
  cbn [map]. change (sum (?a :: ?l)) with (a + sum l). rewrite IH.
  cbn [length]. rewrite S_INR. ring.
Qed.

Lemma variance_shift (c : R) (x : buffer) :
  x <> [] -> variance (map (Rplus c) x) = variance x.
Proof.
  intros Hne.
  assert (Hn : INR (length x) <> 0).
  { apply not_0_INR. destruct x; [congruence | discriminate]. }
  assert (Hm : mean (map (Rplus c) x) = c + mean x).
  { unfold mean. rewrite sum_shift, length_map. field. exact Hn. }
  unfold variance. rewrite Hm, length_map, map_map. do 2 f_equal.
  apply map_ext. intros u. ring.
Qed.

Lemma var_shift (c : R) (x : buffer) : var (map (Rplus c) x) = var x.
Proof.
  destruct x as [|v x]; [reflexivity|].
  rewrite !var_nonempty by discriminate.
  f_equal. apply variance_shift. discriminate.
Qed.

Lemma residual_shift (c1 c0 : R) (x y : buffer) :
  residual (map (Rplus c1) x) (map (Rplus c0) y)
  = map (Rplus (c1 - c0)) (residual x y).
Proof.
  unfold residual. revert y. induction x as [|u x IH]; intros [|v y];
    try reflexivity.
  cbn [map combine fst snd]. rewrite IH. f_equal. ring.
Qed.

(** X23.  Constant offsets, one for each of the three buffers, do not change
    the report of the evaluator: an offset that the filter leaves in or takes
    out is invisible in the SNR figures. *)
Theorem evaluate_offset_invariant (c0 c1 c2 : R) (clean noisy filtered : buffer) :
  length noisy = length clean ->
  length filtered = length clean ->
  evaluate (map (Rplus c0) clean) (map (Rplus c1) noisy)
           (map (Rplus c2) filtered)
  = evaluate clean noisy filtered.
Proof.
  intros Hn Hf. unfold evaluate.
  rewrite !subtract_same_length by (rewrite ?length_map; assumption).
  cbn [bind]. rewrite !residual_shift, !var_shift. reflexivity.
Qed.

Lemma evaluate_offset_invariant_witness :
  evaluate (map (Rplus 1) [0; 1]) (map (Rplus 2) [0; 3]) (map (Rplus 3) [0; 2])
  = evaluate [0; 1] [0; 3] [0; 2].
Proof. apply evaluate_offset_invariant; reflexivity. Defined.

Lemma sum_scale_l (k : R) (x : buffer) : sum (map (Rmult k) x) = k * sum x.
Proof.
  induction x as [|v x IH]; [simpl; ring|].
  cbn [map]. change (sum (?a :: ?l)) with (a + sum l). rewrite IH. ring.
Qed.

Lemma variance_scale (k : R) (x : buffer) :
  variance (map (Rmult k) x) = k * k * variance x.
Proof.
  assert (Hm : mean (map (Rmult k) x) = k * mean x).
  { unfold mean. rewrite sum_scale_l, length_map. unfold Rdiv. ring. }
  unfold variance. rewrite Hm, length_map, map_map.
  rewrite (map_ext (fun u => (k * u - k * mean x) * (k * u - k * mean x))
                   (fun u => k * k * ((u - mean x) * (u - mean x))))
    by (intros u; ring).
  rewrite <- (map_map (fun u => (u - mean x) * (u - mean x)) (Rmult (k * k))).
  rewrite sum_scale_l. unfold Rdiv. ring.
Qed.

Lemma residual_scale (k : R) (x y : buffer) :
  residual (map (Rmult k) x) (map (Rmult k) y) = map (Rmult k) (residual x y).
Proof.
  unfold residual. revert y. induction x as [|u x IH]; intros [|v y];
    try reflexivity.
  cbn [map combine fst snd]. rewrite IH. f_equal. ring.
Qed.

Lemma fdiv_var_scale (k : R) (x y : buffer) :
  k <> 0 ->
  fdiv (var (map (Rmult k) x)) (var (map (Rmult k) y)) = fdiv (var x) (var y).
Proof.
  intros Hk. assert (Hk2 : 0 < k * k) by nra.
  destruct x as [|u x]; [reflexivity|].
  destruct y as [|v y]; [reflexivity|].
  change (map (Rmult k) (u :: x)) with (map (Rmult k) (u :: x)).
  rewrite !(@var_nonempty (map (Rmult k) _)) by discriminate.
  rewrite !(@var_nonempty (_ :: _)) by discriminate.
  rewrite !variance_scale.
  set (a := variance (u :: x)). set (b := variance (v :: y)).
  unfold fdiv.
  destruct (Req_dec_T b 0) as [Eb|Eb].
  - destruct (Req_dec_T (k * k * b) 0) as [_|N]; [|exfalso; apply N; rewrite Eb; ring].
    destruct (Req_dec_T a 0) as [Ea|Ea].
    + destruct (Req_dec_T (k * k * a) 0) as [_|N]; [reflexivity|].
      exfalso; apply N; rewrite Ea; ring.
    + destruct (Req_dec_T (k * k * a) 0) as [E|_]; [exfalso; nra|].
      destruct (Rlt_dec 0 a), (Rlt_dec 0 (k * k * a)); try reflexivity;
        exfalso; nra.
  - destruct (Req_dec_T (k * k * b) 0) as [E|_]; [exfalso; nra|].
    f_equal. field. split; [exact Eb | exact Hk].
Qed.

(** X24.  A common non-zero gain applied to the three buffers does not change
    the report of the evaluator. *)
Theorem evaluate_scale_invariant (k : R) (clean noisy filtered : buffer) :
  k <> 0 ->
  length noisy = length clean ->
  length filtered = length clean ->
  evaluate (map (Rmult k) clean) (map (Rmult k) noisy) (map (Rmult k) filtered)
  = evaluate clean noisy filtered.
Proof.
  intros Hk Hn Hf. unfold evaluate.
  rewrite !subtract_same_length by (rewrite ?length_map; assumption).
  cbn [bind]. fold (residual noisy clean) (residual filtered clean).
  rewrite !residual_scale, !fdiv_var_scale by assumption. reflexivity.
Qed.

Lemma evaluate_scale_invariant_witness :
  evaluate (map (Rmult 2) [0; 1]) (map (Rmult 2) [0; 3]) (map (Rmult 2) [0; 2])
  = evaluate [0; 1] [0; 3] [0; 2].
Proof. apply evaluate_scale_invariant; [lra | reflexivity | reflexivity]. Defined.


(** ** The whole run, with its arrays *)

(** X25.  Whatever the state of the random generator, the demonstration runs
    to the end and draws exactly 10000 random numbers; the filtered array has
    10000 samples, both spectra have 5000 frequencies and 5000 magnitudes, and
    the two spectra are on the same frequency axis. *)
Theorem demonstrate_filtering_outcome (g : rng_state) :
  exists d,
    demonstrate_filtering g = (Ok d, fun k => g (Z.to_nat 10000 + k)%nat) /\
    Z.of_nat (length (demo_filtered d)) = 10000%Z /\
    Z.of_nat (length (fst (demo_spectrum_noisy d))) = 5000%Z /\
    Z.of_nat (length (snd (demo_spectrum_noisy d))) = 5000%Z /\
    Z.of_nat (length (fst (demo_spectrum_filtered d))) = 5000%Z /\
    Z.of_nat (length (snd (demo_spectrum_filtered d))) = 5000%Z /\
    fst (demo_spectrum_filtered d) = fst (demo_spectrum_noisy d).
Proof.
  unfold demonstrate_filtering.
  destruct (@generate_ppg_signal_grid_ok default_duration eq_refl)
    as (t & Ht & Lt).
  assert (HN : Qfloor (Dspblog.fs * default_duration) = 10000%Z) by reflexivity.
  rewrite HN in Lt.
  rewrite (@generate_ppg_signal_run _ g _ Ht). rewrite Lt.
  set (noisy := vadd _ _). set (clean := map clean_at _).
  assert (Ln : length noisy = Z.to_nat 10000).
  { unfold noisy. rewrite !vadd_length, !length_map, length_seq, Lt. lia. }
  assert (Lc : length clean = Z.to_nat 10000).
  { unfold clean. now rewrite !length_map. }
  cbn [bind].
  destruct (@cascade_runs noisy) as (filtered & Hc & Lf); [lia|].
  rewrite Hc. cbn [bind].
  assert (Nn : noisy <> []).
  { intros E. rewrite E in Ln. simpl in Ln. lia. }
  assert (Nf : filtered <> []).
  { intros E. rewrite E in Lf. simpl in Lf. lia. }
  rewrite (compute_spectrum_run Nn), (compute_spectrum_run Nf). cbn [bind].
  unfold evaluate.
  rewrite (@subtract_same_length noisy clean) by congruence.
  rewrite (@subtract_same_length filtered clean) by congruence.
  cbn [bind]. eexists. split; [reflexivity|].
  cbn [demo_filtered demo_spectrum_noisy demo_spectrum_filtered fst snd].
  rewrite !length_map, Lf, Ln.
  rewrite retained_seq by lia. rewrite length_seq.
  assert (Hh : Z.of_nat ((Z.to_nat 10000 - 1) / 2 + 1) = 5000%Z) by lia_div.
  repeat split; try lia.
Qed.
